(** * Steiner curve: curve model and animator

    A shallow embedding of [steiner-curve.py]: the class [SteinerCurve]
    (parameter validation and the three evaluation methods), the class
    [Animator] (frame index, running flag, generated sample) and the
    handlers of [MainWindow] that drive them (the animation button,
    "plot", "clear", the spin boxes), followed by the properties the
    specification states and by further properties read off the code.

    Numbers.  The program computes with Python floats and numpy arrays of
    float64.  The embedding is written once, over an interface [Numeric]
    that has one operation per arithmetic primitive the source calls
    ([-], [*], [/], [**], [<=], [>], [np.cos], [np.sin], [np.sqrt],
    [np.arctan2], [np.pi]).  Every definition below is the source's
    expression tree over that interface; nothing about rounding is assumed.
    The real numbers of the Standard Library give an instance, used for the
    concrete evaluations; the real numbers with the infinities and NaN of
    IEEE 754 give another, used where a special value decides. *)

From Stdlib Require Import ZArith List Bool Lia.
From Stdlib Require Import Reals Lra.
Import ListNotations.

Set Implicit Arguments.
Open Scope Z_scope.

(* ================================================================== *)
(** ** Python outcomes: exceptions and the state monad of a method *)

(** The exceptions the modelled code can raise.  The two [ValueError]s of
    [set_parameters] carry Russian messages in the source; they are told
    apart here by constructor:
    - [ValueError_not_positive]: "all parameters must be positive";
    - [ValueError_d_exceeds_r]: "distance d cannot exceed radius r". *)
Inductive exn : Type :=
  | ValueError_not_positive
  | ValueError_d_exceeds_r
  | ValueError_linspace
  | ZeroDivisionError
  | IndexError.

Inductive result (A : Type) : Type :=
  | Ok (a : A)
  | Raise (e : exn).
Arguments Ok {A} a.
Arguments Raise {A} e.

(** A method of an object with state [S]: it returns a value or raises,
    and in both cases leaves the object in some state (what was assigned
    before a [raise] stays assigned). *)
Definition Py (S A : Type) : Type := S -> result A * S.

Definition ret {S A} (a : A) : Py S A := fun s => (Ok a, s).
Definition raise {S A} (e : exn) : Py S A := fun s => (Raise e, s).
Definition bind {S A B} (m : Py S A) (k : A -> Py S B) : Py S B :=
  fun s => match m s with
           | (Ok a, s') => k a s'
           | (Raise e, s') => (Raise e, s')
           end.
Definition get {S} : Py S S := fun s => (Ok s, s).
Definition modify {S} (f : S -> S) : Py S unit := fun s => (Ok tt, f s).
Definition lift {S A} (r : result A) : Py S A := fun s => (r, s).

(** [try: body except Exception as e: handler e]. *)
Definition try_except {S A} (body : Py S A) (handler : exn -> Py S A)
  : Py S A :=
  fun s => match body s with
           | (Ok a, s') => (Ok a, s')
           | (Raise e, s') => handler e s'
           end.

Declare Scope py_scope.
Delimit Scope py_scope with py.
Notation "x <- m ;; k" := (bind m (fun x => k))
  (at level 61, m at next level, right associativity) : py_scope.
Notation "m ;; k" := (bind m (fun _ => k))
  (at level 61, right associativity) : py_scope.
Open Scope py_scope.

(** Bind on plain results, for the methods of [SteinerCurve] that only
    read the object. *)
Definition rbind {A B} (r : result A) (k : A -> result B) : result B :=
  match r with
  | Ok a => k a
  | Raise e => Raise e
  end.

(* ================================================================== *)
(** ** The numeric interface *)

Class Numeric (F : Type) : Type := {
  of_Z : Z -> F;                 (* an int literal used as a number *)
  np_pi : F;                     (* np.pi *)
  fadd : F -> F -> F;            (* a + b *)
  fsub : F -> F -> F;            (* a - b *)
  fmul : F -> F -> F;            (* a * b *)
  fdiv : F -> F -> F;            (* the quotient of a / b, b not zero *)
  fpow : F -> nat -> F;          (* a ** n *)
  fle : F -> F -> bool;          (* a <= b *)
  fgt : F -> F -> bool;          (* a > b *)
  feq : F -> F -> bool;          (* a == b *)
  np_cos : F -> F;
  np_sin : F -> F;
  np_sqrt : F -> F;
  np_arctan2 : F -> F -> F       (* np.arctan2(y, x) *)
}.

(** The one fact about comparisons the development relies on: a number
    that compares equal to 0 also compares [<= 0].  It holds of Python
    floats (including both signed zeros; NaN is not [==] to anything). *)
Class NumericLaws (F : Type) `{Numeric F} : Prop := {
  feq_zero_fle : forall x : F, feq x (of_Z 0) = true -> fle x (of_Z 0) = true
}.
Arguments NumericLaws F {_}.

(** Values of exact arithmetic that the evaluations at angle 0 and at
    the integer parameters (3, 1, 1) use.  Each is also a fact of
    binary64: the cosine and the sine of 0, the product with 1 (of any
    value, infinite or NaN included), and products, differences and
    comparisons of integers small enough to be exact (67108864 is 2^26,
    9007199254740992 is 2^53).  The product with 0 is not among them: it
    is 0 only of a finite value. *)
Class ExactArith (F : Type) `{Numeric F} : Prop := {
  cos_zero : np_cos (of_Z 0) = of_Z 1;
  sin_zero : np_sin (of_Z 0) = of_Z 0;
  mul_one_r : forall a : F, fmul a (of_Z 1) = a;
  mul_of_Z : forall a b : Z,
    0 <= a <= 67108864 -> 0 <= b <= 67108864 ->
    fmul (of_Z a) (of_Z b) = of_Z (a * b);
  sub_of_Z : forall a b : Z,
    0 <= b <= a -> a <= 9007199254740992 ->
    fsub (of_Z a) (of_Z b) = of_Z (a - b);
  fle_of_Z : forall a b : Z,
    Z.abs a <= 9007199254740992 -> Z.abs b <= 9007199254740992 ->
    fle (of_Z a) (of_Z b) = (a <=? b);
  fgt_of_Z : forall a b : Z,
    Z.abs a <= 9007199254740992 -> Z.abs b <= 9007199254740992 ->
    fgt (of_Z a) (of_Z b) = (b <? a)
}.
Arguments ExactArith F {_}.
Arguments mul_of_Z {F _ _} a b _ _.
Arguments sub_of_Z {F _ _} a b _ _.
Arguments fle_of_Z {F _ _} a b _ _.
Arguments fgt_of_Z {F _ _} a b _ _.

(** Two facts about [>] and [==] that the window's coercion of [d]
    relies on: nothing is greater than itself, and a number greater than
    another does not compare equal to it. *)
Class CompareLaws (F : Type) `{Numeric F} : Prop := {
  fgt_irrefl : forall a : F, fgt a a = false;
  fgt_not_feq : forall a b : F, fgt a b = true -> feq b a = false
}.
Arguments CompareLaws F {_}.

Section Model.

Context {F : Type} `{NumF : Numeric F}.

(** Python's [a / b] on floats: raises [ZeroDivisionError] when [b == 0]. *)
Definition py_div (a b : F) : result F :=
  if feq b (of_Z 0) then Raise ZeroDivisionError else Ok (fdiv a b).

(** Python's [a % b] on ints: raises when [b == 0]; otherwise the result
    has the sign of [b], which is [Z.modulo]. *)
Definition py_mod (a b : Z) : result Z :=
  if b =? 0 then Raise ZeroDivisionError else Ok (a mod b).

(** [seq[i]] on a Python list or a one-dimensional array: a negative
    index counts from the end; out of range raises [IndexError]. *)
Definition py_getitem {A} (l : list A) (i : Z) : result A :=
  let n := Z.of_nat (length l) in
  let j := if i <? 0 then i + n else i in
  if (j <? 0) || (n <=? j) then Raise IndexError
  else match nth_error l (Z.to_nat j) with
       | Some a => Ok a
       | None => Raise IndexError
       end.

(** [[f(i) for i in idx]]: the elements in order, the first exception
    ending the comprehension. *)
Fixpoint list_comprehension {A} (f : nat -> result A) (idx : list nat)
  : result (list A) :=
  match idx with
  | [] => Ok []
  | i :: idx' =>
      rbind (f i) (fun a =>
      rbind (list_comprehension f idx') (fun l => Ok (a :: l)))
  end.

(** *** numpy arrays (one-dimensional, float64) *)

Definition ndarray : Type := list F.

(** [np.cos(v)], [np.sin(v)]: elementwise. *)
Definition np_cos_arr (v : ndarray) : ndarray := map np_cos v.

Definition np_sin_arr (v : ndarray) : ndarray := map np_sin v.

(** [a * v] for a scalar [a] and an array [v]. *)
Definition np_scale (a : F) (v : ndarray) : ndarray := map (fmul a) v.

(** [u + v] and [u - v] for two arrays of the same shape: elementwise. *)
Fixpoint np_zip (op : F -> F -> F) (u v : ndarray) : ndarray :=
  match u, v with
  | a :: u', b :: v' => op a b :: np_zip op u' v'
  | _, _ => []
  end.

Definition np_add_arr : ndarray -> ndarray -> ndarray := np_zip fadd.

Definition np_sub_arr : ndarray -> ndarray -> ndarray := np_zip fsub.

(** [np.arange(0, num)] as floats. *)
Definition np_arange (num : nat) : ndarray :=
  map (fun i => of_Z (Z.of_nat i)) (seq 0 num).

(** [v[-1] = x]; nothing to assign in an empty array. *)
Definition set_last (v : ndarray) (x : F) : ndarray :=
  match v with
  | [] => []
  | _ => removelast v ++ [x]
  end.

(** [np.linspace(start, stop, num)] (endpoint included): [num] samples
    [i * step + start] with [step = (stop - start) / (num - 1)], the last
    one set to [stop] itself.  numpy refuses a negative [num]; when the
    step rounds to zero it scales by [delta] after dividing by [num - 1]. *)
Definition np_linspace (start stop : F) (num : Z) : result ndarray :=
  if num <? 0 then Raise ValueError_linspace
  else
    let n := Z.to_nat num in
    let div := num - 1 in
    let delta := fsub stop start in
    let y := np_arange n in
    let y :=
      if 0 <? div then
        let step := fdiv delta (of_Z div) in
        if feq step (of_Z 0)
        then map (fun a => fmul (fdiv a (of_Z div)) delta) y
        else map (fun a => fmul a step) y
      else map (fun a => fmul a delta) y in
    let y := map (fun a => fadd a start) y in
    Ok (if 1 <? num then set_last y stop else y).

(* ================================================================== *)
(** ** class Point, class SteinerCurve *)

Record Point : Type := mkPoint { x : F; y : F }.

Record SteinerCurve : Type := mkSteinerCurve {
  self_R : F;
  self_r : F;
  self_d : F
}.

(** [SteinerCurve.set_parameters(R, r, d)]. *)
Definition set_parameters (R r d : F) : Py SteinerCurve unit :=
  if fle R (of_Z 0) || fle r (of_Z 0) || fle d (of_Z 0)
  then raise ValueError_not_positive
  else if fgt d r
  then raise ValueError_d_exceeds_r
  else
    modify (fun self => mkSteinerCurve R (self_r self) (self_d self)) ;;
    modify (fun self => mkSteinerCurve (self_R self) r (self_d self)) ;;
    modify (fun self => mkSteinerCurve (self_R self) (self_r self) d).

(** The disjunction the specification gives for a rejected triple. *)
Definition invalid_parameters (R r d : F) : bool :=
  fle R (of_Z 0) || fle r (of_Z 0) || fle d (of_Z 0) || fgt d r.

Definition valid_curve (self : SteinerCurve) : Prop :=
  invalid_parameters (self_R self) (self_r self) (self_d self) = false.

(** [SteinerCurve.calculate_cartesian(t_values)]. *)
Definition calculate_cartesian (self : SteinerCurve) (t_values : ndarray)
  : result (list Point) :=
  let Rr := fsub (self_R self) (self_r self) in
  rbind (py_div Rr (self_r self)) (fun k =>
  let xs := np_add_arr (np_scale Rr (np_cos_arr t_values))
                       (np_scale (self_d self)
                                 (np_cos_arr (np_scale k t_values))) in
  rbind (py_div Rr (self_r self)) (fun k' =>
  let ys := np_sub_arr (np_scale Rr (np_sin_arr t_values))
                       (np_scale (self_d self)
                                 (np_sin_arr (np_scale k' t_values))) in
  list_comprehension
    (fun i => rbind (py_getitem xs (Z.of_nat i)) (fun xi =>
              rbind (py_getitem ys (Z.of_nat i)) (fun yi =>
              Ok (mkPoint xi yi))))
    (seq 0 (length t_values)))).

(** [SteinerCurve.calculate_polar(t_values)]. *)
Definition calculate_polar (self : SteinerCurve) (t_values : ndarray)
  : result (list F * list F) :=
  rbind (calculate_cartesian self t_values) (fun points =>
  let r := map (fun p => np_sqrt (fadd (fpow (x p) 2) (fpow (y p) 2)))
               points in
  let theta := map (fun p => np_arctan2 (y p) (x p)) points in
  Ok (r, theta)).

(** [SteinerCurve.calculate_rolling_circle(t_values)]. *)
Definition calculate_rolling_circle (self : SteinerCurve)
  (t_values : ndarray) : result (ndarray * ndarray) :=
  let xs := np_scale (fsub (self_R self) (self_r self))
                     (np_cos_arr t_values) in
  let ys := np_scale (fsub (self_R self) (self_r self))
                     (np_sin_arr t_values) in
  Ok (xs, ys).

(** The parametric formulas as the specification writes them:
    [x(t) = (R - r) cos t + d cos(((R - r) / r) t)] and
    [y(t) = (R - r) sin t - d sin(((R - r) / r) t)]. *)
Definition spec_x (R r d t : F) : F :=
  fadd (fmul (fsub R r) (np_cos t))
       (fmul d (np_cos (fmul (fdiv (fsub R r) r) t))).

Definition spec_y (R r d t : F) : F :=
  fsub (fmul (fsub R r) (np_sin t))
       (fmul d (np_sin (fmul (fdiv (fsub R r) r) t))).

Definition spec_point (self : SteinerCurve) (t : F) : Point :=
  mkPoint (spec_x (self_R self) (self_r self) (self_d self) t)
          (spec_y (self_R self) (self_r self) (self_d self) t).

(** The product of [a] with 0 is 0.  It is so of every real number; of a
    float it says that [a] is finite (an infinite or NaN [a] gives NaN)
    and, where zeros are signed, not negative. *)
Definition zero_product (a : F) : Prop := fmul a (of_Z 0) = of_Z 0.

(** The polar pair the specification derives from a Cartesian point:
    [radius = sqrt(x^2 + y^2)], [angle = atan2(y, x)]. *)
Definition spec_radius (p : Point) : F :=
  np_sqrt (fadd (fpow (x p) 2) (fpow (y p) 2)).

Definition spec_angle (p : Point) : F := np_arctan2 (y p) (x p).

(* ================================================================== *)
(** ** class Animator *)

(** The [QSlider] handed to the animator.  [MainWindow.__init__] gives it
    the range 0..299; [MainWindow.init_ui] connects its [valueChanged]
    signal to [Animator.set_frame]. *)
Record QSlider : Type := mkQSlider {
  minimum : Z;
  maximum : Z;
  value : Z
}.

(** What one completed [draw_current_frame] hands to the two canvases for
    the current step: the traced point, the centre of the rolling circle,
    and the polar pair (theta, r).  The full paths and the fixed circle
    that are drawn with them are functions of the stored sample and of the
    curve, and are not repeated in the frame. *)
Record Frame : Type := mkFrame {
  frame_point : Point;
  frame_rolling_centre : F * F;
  frame_polar : F * F
}.

Record Animator : Type := mkAnimator {
  curve : SteinerCurve;
  slider : QSlider;
  current_step : Z;
  total_steps : Z;
  timer_active : bool;           (* the QTimer, started or stopped *)
  animation_running : bool;
  points : list Point;
  polar_r : list F;
  polar_theta : list F;
  rolling_circle_x : ndarray;
  rolling_circle_y : ndarray;
  canvas : list Frame;           (* frames drawn so far, newest first *)
  dialogs : list exn             (* QMessageBox.critical calls, newest first *)
}.

(** [Animator.__init__(curve, cart_canvas, polar_canvas, slider)]. *)
Definition Animator_init (c : SteinerCurve) (sl : QSlider) : Animator :=
  mkAnimator c sl 0 300 false false [] [] [] [] [] [] [].

(** Attribute assignments. *)
Definition set_slider_value (v : Z) (a : Animator) : Animator :=
  mkAnimator (curve a) (mkQSlider (minimum (slider a)) (maximum (slider a)) v)
    (current_step a) (total_steps a) (timer_active a) (animation_running a)
    (points a) (polar_r a) (polar_theta a)
    (rolling_circle_x a) (rolling_circle_y a) (canvas a) (dialogs a).

Definition set_current_step (v : Z) (a : Animator) : Animator :=
  mkAnimator (curve a) (slider a) v (total_steps a) (timer_active a)
    (animation_running a) (points a) (polar_r a) (polar_theta a)
    (rolling_circle_x a) (rolling_circle_y a) (canvas a) (dialogs a).

Definition set_timer_active (b : bool) (a : Animator) : Animator :=
  mkAnimator (curve a) (slider a) (current_step a) (total_steps a) b
    (animation_running a) (points a) (polar_r a) (polar_theta a)
    (rolling_circle_x a) (rolling_circle_y a) (canvas a) (dialogs a).

Definition set_animation_running (b : bool) (a : Animator) : Animator :=
  mkAnimator (curve a) (slider a) (current_step a) (total_steps a)
    (timer_active a) b (points a) (polar_r a) (polar_theta a)
    (rolling_circle_x a) (rolling_circle_y a) (canvas a) (dialogs a).

Definition set_points (ps : list Point) (a : Animator) : Animator :=
  mkAnimator (curve a) (slider a) (current_step a) (total_steps a)
    (timer_active a) (animation_running a) ps (polar_r a) (polar_theta a)
    (rolling_circle_x a) (rolling_circle_y a) (canvas a) (dialogs a).

Definition set_polar (rt : list F * list F) (a : Animator) : Animator :=
  mkAnimator (curve a) (slider a) (current_step a) (total_steps a)
    (timer_active a) (animation_running a) (points a) (fst rt) (snd rt)
    (rolling_circle_x a) (rolling_circle_y a) (canvas a) (dialogs a).

Definition set_rolling_circle (xy : ndarray * ndarray) (a : Animator)
  : Animator :=
  mkAnimator (curve a) (slider a) (current_step a) (total_steps a)
    (timer_active a) (animation_running a) (points a) (polar_r a)
    (polar_theta a) (fst xy) (snd xy) (canvas a) (dialogs a).

Definition canvas_draw (f : Frame) (a : Animator) : Animator :=
  mkAnimator (curve a) (slider a) (current_step a) (total_steps a)
    (timer_active a) (animation_running a) (points a) (polar_r a)
    (polar_theta a) (rolling_circle_x a) (rolling_circle_y a)
    (f :: canvas a) (dialogs a).

Definition QMessageBox_critical (e : exn) (a : Animator) : Animator :=
  mkAnimator (curve a) (slider a) (current_step a) (total_steps a)
    (timer_active a) (animation_running a) (points a) (polar_r a)
    (polar_theta a) (rolling_circle_x a) (rolling_circle_y a)
    (canvas a) (e :: dialogs a).

(** [not l] for a Python list. *)
Definition py_not {A} (l : list A) : bool :=
  match l with
  | [] => true
  | _ :: _ => false
  end.

(** [Animator.stop_animation()]. *)
Definition stop_animation : Py Animator bool :=
  self <- get ;;
  if animation_running self then
    modify (set_animation_running false) ;;
    modify (set_timer_active false) ;;
    ret true
  else ret false.

(** [Animator.generate_points()]. *)
Definition generate_points : Py Animator bool :=
  try_except
    (self <- get ;;
     t_values <- lift (np_linspace (of_Z 0) (fmul (of_Z 2) np_pi)
                                   (total_steps self)) ;;
     ps <- lift (calculate_cartesian (curve self) t_values) ;;
     modify (set_points ps) ;;
     rt <- lift (calculate_polar (curve self) t_values) ;;
     modify (set_polar rt) ;;
     xy <- lift (calculate_rolling_circle (curve self) t_values) ;;
     modify (set_rolling_circle xy) ;;
     ret true)
    (fun e => modify (QMessageBox_critical e) ;; ret false).

(** [Animator.start_animation()]. *)
Definition start_animation : Py Animator bool :=
  self <- get ;;
  generated <- (if py_not (points self) then generate_points else ret true) ;;
  if negb generated then ret false
  else
    self <- get ;;
    if negb (animation_running self) then
      modify (set_animation_running true) ;;
      modify (set_timer_active true) ;;
      ret true
    else ret false.

(** [Animator.draw_current_frame()].  The early return is the source's
    guard; the five indexings are the source's, in its order. *)
Definition draw_current_frame : Py Animator unit :=
  self <- get ;;
  if py_not (points self)
     || (Z.of_nat (length (points self)) <=? current_step self)
  then ret tt
  else
    point <- lift (py_getitem (points self) (current_step self)) ;;
    cx <- lift (py_getitem (rolling_circle_x self) (current_step self)) ;;
    cy <- lift (py_getitem (rolling_circle_y self) (current_step self)) ;;
    theta <- lift (py_getitem (polar_theta self) (current_step self)) ;;
    rho <- lift (py_getitem (polar_r self) (current_step self)) ;;
    modify (canvas_draw (mkFrame point (cx, cy) (theta, rho))).

(** [Animator.set_frame(step)]. *)
Definition set_frame (step : Z) : Py Animator unit :=
  self <- get ;;
  m <- lift (py_mod step (total_steps self)) ;;
  modify (set_current_step m) ;;
  draw_current_frame.

(** [self.slider.setValue(v)]: Qt bounds [v] to the slider's range, and
    when the bounded value differs from the stored one it stores it and
    emits [valueChanged], whose slot is [set_frame].  The slot runs before
    [setValue] returns; an exception in it is passed on to the caller. *)
Definition slider_setValue (v : Z) : Py Animator unit :=
  self <- get ;;
  let v' := Z.max (minimum (slider self)) (Z.min (maximum (slider self)) v) in
  if v' =? value (slider self) then ret tt
  else modify (set_slider_value v') ;; set_frame v'.

(** [Animator.update_frame()], the slot of the timer. *)
Definition update_frame : Py Animator unit :=
  self <- get ;;
  if negb (animation_running self) then ret tt
  else
    m <- lift (py_mod (current_step self + 1) (total_steps self)) ;;
    modify (set_current_step m) ;;
    self <- get ;;
    slider_setValue (current_step self) ;;
    draw_current_frame.

(** *** The states of the specification, read off the animator's fields *)

(** A sample is present: [self.points] is not empty. *)
Definition sample_present (a : Animator) : Prop := points a <> [].

(** The five sequences of the sample have one entry per step, as a
    completed [generate_points] leaves them. *)
Definition sample_complete (a : Animator) : Prop :=
  length (points a) = Z.to_nat (total_steps a) /\
  length (rolling_circle_x a) = Z.to_nat (total_steps a) /\
  length (rolling_circle_y a) = Z.to_nat (total_steps a) /\
  length (polar_theta a) = Z.to_nat (total_steps a) /\
  length (polar_r a) = Z.to_nat (total_steps a).

(** The slider's range holds every step index, as [setRange(0, 299)] does
    for the 300 steps. *)
Definition slider_covers (a : Animator) : Prop :=
  minimum (slider a) <= 0 /\ total_steps a - 1 <= maximum (slider a).

(** The three states of the controller: [Idle] has no sample, [Paused]
    and [Running] have one and differ in the running flag. *)
Definition Idle (a : Animator) : Prop := points a = [].

Definition Paused (a : Animator) : Prop :=
  sample_present a /\ animation_running a = false.

Definition Running (a : Animator) : Prop :=
  sample_present a /\ animation_running a = true.

(** What [MainWindow.__init__] sets up and every method keeps: at least
    one step, a slider that holds every step index, and a sample that is
    complete whenever there is one. *)
Definition well_formed (a : Animator) : Prop :=
  1 <= total_steps a /\ slider_covers a /\
  (sample_present a -> sample_complete a).

(** [a'] differs from [a] at most in the current step, the slider's
    value and the frames drawn. *)
Definition steps_only (a a' : Animator) : Prop :=
  curve a' = curve a /\
  minimum (slider a') = minimum (slider a) /\
  maximum (slider a') = maximum (slider a) /\
  total_steps a' = total_steps a /\
  timer_active a' = timer_active a /\
  animation_running a' = animation_running a /\
  points a' = points a /\
  polar_r a' = polar_r a /\ polar_theta a' = polar_theta a /\
  rolling_circle_x a' = rolling_circle_x a /\
  rolling_circle_y a' = rolling_circle_y a /\
  dialogs a' = dialogs a.

(** [a'] has the running flag and the timer of [a]. *)
Definition flags_same (a a' : Animator) : Prop :=
  animation_running a' = animation_running a /\
  timer_active a' = timer_active a.

(** The frame index is within the frame count. *)
Definition frame_in_range (a : Animator) : Prop :=
  0 <= current_step a < total_steps a.

(** The invariant of the specification, with the frame count at 300. *)
Definition frame_invariant (a : Animator) : Prop :=
  total_steps a = 300 /\ 0 <= current_step a < 300.

(** The animator with another list of drawn frames. *)
Definition set_canvas (c : list Frame) (a : Animator) : Animator :=
  mkAnimator (curve a) (slider a) (current_step a) (total_steps a)
    (timer_active a) (animation_running a) (points a) (polar_r a)
    (polar_theta a) (rolling_circle_x a) (rolling_circle_y a)
    c (dialogs a).

(** The polar path that [draw_current_frame] plots: the angles and the
    radii recomputed from the stored points at every draw (the same two
    comprehensions as in [GraphCanvas.draw_curve] with [polar=True]). *)
Definition polar_path (ps : list Point) : list F * list F :=
  (map (fun p => np_arctan2 (y p) (x p)) ps,
   map (fun p => np_sqrt (fadd (fpow (x p) 2) (fpow (y p) 2))) ps).

(** [n] firings of the timer, stopping at the first exception. *)
Fixpoint ticks (n : nat) : Py Animator unit :=
  match n with
  | O => ret tt
  | S n' => update_frame ;; ticks n'
  end.

End Model.

(* ================================================================== *)
(** ** class MainWindow *)

(** The two texts of the animation button: "Старт анимации" and
    "Стоп анимации". *)
Inductive ButtonText : Type :=
  | StartText
  | StopText.

(** The [QMessageBox.warning] calls of [update_parameters]: the fixed
    text of the [d > r] check, or [str(e)] of a caught [ValueError]. *)
Inductive Warning : Type :=
  | Warning_d_exceeds_r
  | Warning_exception (e : exn).

Section Window.

Context {F : Type} `{NumF : Numeric F}.

(** What a [QDoubleSpinBox] of the window makes of a value handed to
    [setValue]: Qt rounds it to the box's decimals and bounds it to the
    box's range (0.1 to 10.0 for all three boxes).  The result is what
    the box then holds and reports by [value()]. *)
Variable spin_bound : F -> F.

(** The window.  [self.steiner_curve] is the very object the animator
    holds as [self.curve], and [self.slider] the one it holds as
    [self.slider]; both live in [animator].  [figures_blank] says that
    both figures are cleared and that no frame was drawn since. *)
Record MainWindow : Type := mkMainWindow {
  animator : @Animator F;
  R_spin : F;
  r_spin : F;
  d_spin : F;
  animation_button : ButtonText;
  figures_blank : bool;
  warnings : list Warning        (* newest first *)
}.

(** [SteinerCurve(R, r, d)].  The attributes do not exist before
    [set_parameters] assigns them; the record passed in stands for the
    object without them and is dropped when the call raises. *)
Definition SteinerCurve_init (R r d : F) : result (@SteinerCurve F) :=
  match set_parameters R r d (mkSteinerCurve R r d) with
  | (Ok _, self) => Ok self
  | (Raise e, _) => Raise e
  end.

(** [MainWindow.__init__()] with [init_ui()]: the default curve
    (3.0, 1.0, 1.0), the slider with range 0..299 at its initial value 0,
    the animator, the spin boxes set to the curve's parameters before
    their signals are connected, the button reading "start". *)
Definition MainWindow_init : result MainWindow :=
  rbind (SteinerCurve_init (of_Z 3) (of_Z 1) (of_Z 1)) (fun c =>
  Ok (mkMainWindow (Animator_init c (mkQSlider 0 299 0))
        (spin_bound (self_R c)) (spin_bound (self_r c))
        (spin_bound (self_d c)) StartText true [])).

(** Attribute assignments. *)
Definition set_curve (c : @SteinerCurve F) (a : @Animator F) : @Animator F :=
  mkAnimator c (slider a) (current_step a) (total_steps a)
    (timer_active a) (animation_running a) (points a) (polar_r a)
    (polar_theta a) (rolling_circle_x a) (rolling_circle_y a)
    (canvas a) (dialogs a).

Definition set_animator (a : @Animator F) (w : MainWindow) : MainWindow :=
  mkMainWindow a (R_spin w) (r_spin w) (d_spin w) (animation_button w)
    (figures_blank w) (warnings w).

Definition set_d_spin (v : F) (w : MainWindow) : MainWindow :=
  mkMainWindow (animator w) (R_spin w) (r_spin w) v (animation_button w)
    (figures_blank w) (warnings w).

Definition setText (t : ButtonText) (w : MainWindow) : MainWindow :=
  mkMainWindow (animator w) (R_spin w) (r_spin w) (d_spin w) t
    (figures_blank w) (warnings w).

Definition set_figures_blank (b : bool) (w : MainWindow) : MainWindow :=
  mkMainWindow (animator w) (R_spin w) (r_spin w) (d_spin w)
    (animation_button w) b (warnings w).

Definition QMessageBox_warning (m : Warning) (w : MainWindow) : MainWindow :=
  mkMainWindow (animator w) (R_spin w) (r_spin w) (d_spin w)
    (animation_button w) (figures_blank w) (m :: warnings w).

(** A method of the animator called on [self.animator].  A frame drawn
    by it ends the blankness of the figures. *)
Definition on_animator {A} (m : Py (@Animator F) A) : Py MainWindow A :=
  fun w =>
    let (r, a') := m (animator w) in
    (r, set_figures_blank
          (figures_blank w
           && (length (canvas a') =? length (canvas (animator w)))%nat)
          (set_animator a' w)).

(** A method of the curve called on [self.steiner_curve]. *)
Definition on_curve {A} (m : Py (@SteinerCurve F) A) : Py MainWindow A :=
  fun w =>
    let (r, c') := m (curve (animator w)) in
    (r, set_animator (set_curve c' (animator w)) w).

(** [except ValueError as e: QMessageBox.warning(..., str(e))]; other
    exceptions pass. *)
Definition is_ValueError (e : exn) : bool :=
  match e with
  | ValueError_not_positive | ValueError_d_exceeds_r
  | ValueError_linspace => true
  | ZeroDivisionError | IndexError => false
  end.

Definition except_ValueError (e : exn) : Py MainWindow unit :=
  if is_ValueError e
  then modify (QMessageBox_warning (Warning_exception e))
  else raise e.

(** Python's [min(a, b)] on two floats: [b] when [b < a], that is when
    [a > b]; otherwise [a]. *)
Definition py_min (a b : F) : F := if fgt a b then b else a.

(** The part of [update_parameters] after the [d > r] check: the curve
    takes the triple, and a running animation is stopped. *)
Definition apply_parameters (R r d : F) : Py MainWindow unit :=
  on_curve (set_parameters R r d) ;;
  self <- get ;;
  if animation_running (animator self) then
    _ <- on_animator stop_animation ;;
    modify (setText StartText)
  else ret tt.

(** [MainWindow.update_parameters()].  It is the slot of the three spin
    boxes' [valueChanged], so [self.d_spin.setValue] re-enters it when
    the value it stores differs from the one held; [fuel] bounds the
    depth of that re-entry, and [None] is its exhaustion. *)
Fixpoint update_parameters (fuel : nat) (self : MainWindow)
  : option (result unit * MainWindow) :=
  match fuel with
  | O => None
  | S fuel' =>
      let R := R_spin self in
      let r := r_spin self in
      let d := d_spin self in
      if fgt d r then
        let self1 := QMessageBox_warning Warning_d_exceeds_r self in
        let v := spin_bound (py_min d r) in
        if feq v (d_spin self1) then Some (Ok tt, self1)
        else
          match update_parameters fuel' (set_d_spin v self1) with
          | None => None
          | Some (Ok _, self2) => Some (Ok tt, self2)
          | Some (Raise e, self2) => Some (except_ValueError e self2)
          end
      else
        Some (try_except (apply_parameters R r d) except_ValueError self)
  end.

(** The part of [plot_curve] after [self.update_parameters()]. *)
Definition plot_generated : Py MainWindow unit :=
  generated <- on_animator generate_points ;;
  if generated then
    on_animator (modify (set_current_step 0)) ;;
    on_animator (slider_setValue 0) ;;
    on_animator draw_current_frame
  else ret tt.

(** [MainWindow.plot_curve()]. *)
Definition plot_curve (fuel : nat) (self : MainWindow)
  : option (result unit * MainWindow) :=
  match update_parameters fuel self with
  | None => None
  | Some (Ok _, self1) => Some (plot_generated self1)
  | Some (Raise e, self1) => Some (Raise e, self1)
  end.

(** [MainWindow.toggle_animation()]. *)
Definition toggle_animation : Py MainWindow unit :=
  self <- get ;;
  generated <- (if py_not (points (animator self))
                then on_animator generate_points else ret true) ;;
  if negb generated then ret tt
  else
    self <- get ;;
    if animation_running (animator self) then
      stopped <- on_animator stop_animation ;;
      if stopped then modify (setText StartText) else ret tt
    else
      started <- on_animator start_animation ;;
      if started then modify (setText StopText) else ret tt.

(** [MainWindow.clear_plots()]. *)
Definition clear_plots : Py MainWindow unit :=
  self <- get ;;
  (if animation_running (animator self) then
     _ <- on_animator stop_animation ;;
     modify (setText StartText)
   else ret tt) ;;
  on_animator (modify (set_current_step 0)) ;;
  on_animator (slider_setValue 0) ;;
  modify (set_figures_blank true).

(** The two events that reach the animator through the window: the
    timer's timeout, and the user moving the slider to [v]. *)
Definition timer_timeout : Py MainWindow unit := on_animator update_frame.

Definition slider_moved (v : Z) : Py MainWindow unit :=
  on_animator (slider_setValue v).

(** The window after the curve took the triple [(R, r, d)] and a running
    animation was stopped: what [apply_parameters] leaves when the curve
    accepts the triple. *)
Definition parameters_applied (R r d : F) (w : MainWindow) : MainWindow :=
  let a1 := set_curve (mkSteinerCurve R r d) (animator w) in
  if animation_running (animator w)
  then setText StartText
         (set_animator (set_timer_active false
                          (set_animation_running false a1)) w)
  else set_animator a1 w.

(** The button's label says "stop" exactly while the animation runs, and
    the timer is active exactly then. *)
Definition button_consistent (w : MainWindow) : Prop :=
  (animation_button w = StopText <->
   animation_running (animator w) = true) /\
  timer_active (animator w) = animation_running (animator w).

End Window.

(* ================================================================== *)
(** ** The axis limits of the Cartesian figure *)

(** Three more primitives, which only the axis limits of
    [draw_current_frame] use: [abs(a)], unary minus, and the float
    literal [1.2]. *)
Class NumericAxes (F : Type) : Type := {
  fabs : F -> F;
  fneg : F -> F;
  f_1_2 : F
}.

Section Axes.

Context {F : Type} `{NumF : Numeric F} `{AxF : NumericAxes F}.

(** Python's [max] continued from a running maximum [m]: an item
    replaces it when [item > m]. *)
Fixpoint py_max_from (m : F) (l : list F) : F :=
  match l with
  | [] => m
  | v :: l' => py_max_from (if fgt v m then v else m) l'
  end.

(** [max_dim] of [draw_current_frame], for the points [p :: ps]:
    [max(R + r + d, max(abs(q.x) for q in points),
         max(abs(q.y) for q in points))]. *)
Definition max_dim (c : @SteinerCurve F) (p : @Point F)
  (ps : list (@Point F)) : F :=
  py_max_from (fadd (fadd (self_R c) (self_r c)) (self_d c))
    [py_max_from (fabs (x p)) (map (fun q => fabs (x q)) ps);
     py_max_from (fabs (y p)) (map (fun q => fabs (y q)) ps)].

(** The pair handed to [set_xlim] and to [set_ylim]:
    [(-max_dim * 1.2, max_dim * 1.2)].  [None] when
    [draw_current_frame] returns at its guard, before any axis is set. *)
Definition axis_limits (a : @Animator F) : option (F * F) :=
  if py_not (points a)
     || (Z.of_nat (length (points a)) <=? current_step a)
  then None
  else match points a with
       | [] => None
       | p :: ps =>
           let m := max_dim (curve a) p ps in
           Some (fmul (fneg m) f_1_2, fmul m f_1_2)
       end.

End Axes.

(* ================================================================== *)
(** ** The real numbers as an instance *)

Definition Rleb (a b : R) : bool := if Rle_dec a b then true else false.

Definition Rgtb (a b : R) : bool := if Rgt_dec a b then true else false.

Definition Reqb (a b : R) : bool := if Req_dec_T a b then true else false.

(** The angle of the point (x, y), in (-PI, PI]. *)
Definition Ratan2 (y x : R) : R :=
  if Rgt_dec x 0 then atan (y / x)
  else if Rgt_dec 0 x then
    if Rle_dec 0 y then (atan (y / x) + PI)%R else (atan (y / x) - PI)%R
  else if Rgt_dec y 0 then (PI / 2)%R
  else if Rgt_dec 0 y then (- (PI / 2))%R
  else 0%R.

#[export] Instance Numeric_R : Numeric R := {|
  of_Z := IZR;
  np_pi := PI;
  fadd := Rplus;
  fsub := Rminus;
  fmul := Rmult;
  fdiv := Rdiv;
  fpow := pow;
  fle := Rleb;
  fgt := Rgtb;
  feq := Reqb;
  np_cos := cos;
  np_sin := sin;
  np_sqrt := sqrt;
  np_arctan2 := Ratan2
|}.

#[export] Instance NumericAxes_R : NumericAxes R := {|
  fabs := Rabs;
  fneg := Ropp;
  f_1_2 := (12 / 10)%R
|}.

(* ================================================================== *)
(** ** The real numbers with the special values of IEEE 754 *)

(** A float is a finite value, an infinity or NaN.  The finite values
    are taken here to be the real numbers, with exact operations (no
    rounding, no overflow, one zero); the infinities and NaN combine as
    IEEE 754 has them, which is how numpy combines them. *)
Inductive xreal : Type :=
  | Finite (v : R)
  | PosInf
  | NegInf
  | NaN.

(** An infinity (positive or not) times, or over, a finite value [v]:
    NaN at 0, otherwise the infinity with the sign of the product. *)
Definition inf_scaled (positive : bool) (v : R) : xreal :=
  if Rlt_dec 0 v then (if positive then PosInf else NegInf)
  else if Rlt_dec v 0 then (if positive then NegInf else PosInf)
  else NaN.

Definition xneg (a : xreal) : xreal :=
  match a with
  | Finite v => Finite (- v)
  | PosInf => NegInf
  | NegInf => PosInf
  | NaN => NaN
  end.

Definition xadd (a b : xreal) : xreal :=
  match a, b with
  | NaN, _ | _, NaN => NaN
  | Finite u, Finite v => Finite (u + v)
  | PosInf, NegInf | NegInf, PosInf => NaN
  | PosInf, _ | _, PosInf => PosInf
  | NegInf, _ | _, NegInf => NegInf
  end.

Definition xsub (a b : xreal) : xreal := xadd a (xneg b).

Definition xmul (a b : xreal) : xreal :=
  match a, b with
  | NaN, _ | _, NaN => NaN
  | Finite u, Finite v => Finite (u * v)
  | PosInf, Finite v | Finite v, PosInf => inf_scaled true v
  | NegInf, Finite v | Finite v, NegInf => inf_scaled false v
  | PosInf, PosInf | NegInf, NegInf => PosInf
  | PosInf, NegInf | NegInf, PosInf => NegInf
  end.

(** numpy's division: a finite value over 0 is an infinity (NaN for
    0 / 0), an infinity over a finite value keeps or flips its sign, a
    finite value over an infinity is 0. *)
Definition xdiv (a b : xreal) : xreal :=
  match a, b with
  | NaN, _ | _, NaN => NaN
  | Finite u, Finite v =>
      if Req_dec_T v 0 then inf_scaled true u else Finite (u / v)
  | Finite _, (PosInf | NegInf) => Finite 0
  | PosInf, Finite v => if Rlt_dec v 0 then NegInf else PosInf
  | NegInf, Finite v => if Rlt_dec v 0 then PosInf else NegInf
  | (PosInf | NegInf), (PosInf | NegInf) => NaN
  end.

Fixpoint xpow (a : xreal) (n : nat) : xreal :=
  match n with
  | O => Finite 1
  | S n' => xmul a (xpow a n')
  end.

(** Comparisons: every comparison with NaN is false. *)
Definition xle (a b : xreal) : bool :=
  match a, b with
  | NaN, _ | _, NaN => false
  | Finite u, Finite v => Rleb u v
  | NegInf, _ | _, PosInf => true
  | PosInf, _ | _, NegInf => false
  end.

Definition xgt (a b : xreal) : bool :=
  match a, b with
  | NaN, _ | _, NaN => false
  | Finite u, Finite v => Rgtb u v
  | NegInf, _ | _, PosInf => false
  | PosInf, _ | _, NegInf => true
  end.

Definition xeq (a b : xreal) : bool :=
  match a, b with
  | Finite u, Finite v => Reqb u v
  | PosInf, PosInf | NegInf, NegInf => true
  | _, _ => false
  end.

(** The cosine and the sine of an infinity or of NaN are NaN. *)
Definition xcos (a : xreal) : xreal :=
  match a with
  | Finite v => Finite (cos v)
  | _ => NaN
  end.

Definition xsin (a : xreal) : xreal :=
  match a with
  | Finite v => Finite (sin v)
  | _ => NaN
  end.

Definition xsqrt (a : xreal) : xreal :=
  match a with
  | Finite v => if Rle_dec 0 v then Finite (sqrt v) else NaN
  | PosInf => PosInf
  | NegInf | NaN => NaN
  end.

(** [arctan2(y, x)] with the values C99 gives at the infinities. *)
Definition xarctan2 (b a : xreal) : xreal :=
  match b, a with
  | NaN, _ | _, NaN => NaN
  | Finite v, Finite u => Finite (Ratan2 v u)
  | Finite v, PosInf => Finite 0
  | Finite v, NegInf => if Rle_dec 0 v then Finite PI else Finite (- PI)
  | PosInf, Finite _ => Finite (PI / 2)
  | NegInf, Finite _ => Finite (- (PI / 2))
  | PosInf, PosInf => Finite (PI / 4)
  | NegInf, PosInf => Finite (- (PI / 4))
  | PosInf, NegInf => Finite (3 * PI / 4)
  | NegInf, NegInf => Finite (- (3 * PI / 4))
  end.

#[export] Instance Numeric_xreal : Numeric xreal | 10 := {|
  of_Z := fun z => Finite (IZR z);
  np_pi := Finite PI;
  fadd := xadd;
  fsub := xsub;
  fmul := xmul;
  fdiv := xdiv;
  fpow := xpow;
  fle := xle;
  fgt := xgt;
  feq := xeq;
  np_cos := xcos;
  np_sin := xsin;
  np_sqrt := xsqrt;
  np_arctan2 := xarctan2
|}.

(** The curve with an infinite fixed radius, [SteinerCurve(inf, 1, 1)],
    and the default curve, over these values. *)
Definition infinite_curve : SteinerCurve (F := xreal) :=
  mkSteinerCurve PosInf (Finite 1) (Finite 1).

Definition finite_default_curve : SteinerCurve (F := xreal) :=
  mkSteinerCurve (Finite 3) (Finite 1) (Finite 1).

(** The default curve of [SteinerCurve.__init__]: R = 3, r = 1, d = 1. *)
Definition default_curve : SteinerCurve (F := R) :=
  mkSteinerCurve 3%R 1%R 1%R.

(** The slider as [MainWindow.__init__] sets it up: range 0..299. *)
Definition window_slider : QSlider := mkQSlider 0 299 0.

(** The animator as [MainWindow.__init__] creates it. *)
Definition window_animator : Animator (F := R) :=
  Animator_init default_curve window_slider.

(** The animator of the window after "start" and five firings of the
    timer. *)
Definition playing_animator : Animator (F := R) :=
  snd ((start_animation ;; ticks 5) window_animator).

(** A spin box over the reals: the value bounded to the box's range
    0.1 to 10.0 (a box with decimals enough not to round). *)
Definition spin_clamp (v : R) : R := Rmax (1 / 10) (Rmin 10 v).

(** The window as [MainWindow.__init__] leaves it. *)
Definition created_window : MainWindow (F := R) :=
  mkMainWindow window_animator 3%R 1%R 1%R StartText true [].

(** The created window once a sample has been generated. *)
Definition generated_window : MainWindow (F := R) :=
  set_animator (snd (generate_points window_animator)) created_window.

(** The created window with the [d] box at 2, above [r = 1]. *)
Definition window_d_above_r : MainWindow (F := R) :=
  mkMainWindow window_animator 3%R 1%R 2%R StartText true [].

(** An animator on a curve object with [r = 0], which [set_parameters]
    would not have let through. *)
Definition flat_animator : Animator (F := R) :=
  Animator_init (mkSteinerCurve 3%R 0%R 1%R) window_slider.

(* ================================================================== *)
(** * Properties *)

Unset Implicit Arguments.

(** ** Lists, indexing and comprehensions *)

Section ListFacts.

Context {F : Type} `{NumF : Numeric F}.

Lemma np_zip_map (op : F -> F -> F) (f g : F -> F) (ts : list F) :
  np_zip op (map f ts) (map g ts) = map (fun t => op (f t) (g t)) ts.
Proof.
  induction ts as [|t ts IH]; simpl; [reflexivity | now rewrite IH].
Qed.

Lemma py_getitem_nth {A} (l : list A) (i : nat) (a : A) :
  nth_error l i = Some a -> py_getitem l (Z.of_nat i) = Ok a.
Proof.
  intros Hnth. unfold py_getitem.
  assert (Hlt : (i < length l)%nat)
    by (apply nth_error_Some; rewrite Hnth; discriminate).
  assert (Hneg : (Z.of_nat i <? 0) = false) by (apply Z.ltb_ge; lia).
  assert (Hge : (Z.of_nat (length l) <=? Z.of_nat i) = false)
    by (apply Z.leb_gt; lia).
  rewrite Hneg. cbv zeta. now rewrite Hneg, Hge, Nat2Z.id, Hnth.
Qed.

Lemma py_getitem_map {A B} (h : B -> A) (l : list B) (i : nat) (b : B) :
  nth_error l i = Some b -> py_getitem (map h l) (Z.of_nat i) = Ok (h b).
Proof.
  intros Hnth. apply py_getitem_nth. now apply map_nth_error.
Qed.

Lemma py_getitem_in_range {A} (l : list A) (i : Z) :
  0 <= i < Z.of_nat (length l) -> exists a, py_getitem l i = Ok a.
Proof.
  intros Hi.
  destruct (nth_error l (Z.to_nat i)) as [a|] eqn:Hnth.
  - exists a. rewrite <- (Z2Nat.id i) by lia. now apply py_getitem_nth.
  - apply nth_error_None in Hnth. lia.
Qed.

Lemma list_comprehension_shift {A B} (g : B -> A) (f : nat -> result A)
  (l : list B) (s : nat) :
  (forall i b, nth_error l i = Some b -> f (s + i)%nat = Ok (g b)) ->
  list_comprehension f (seq s (length l)) = Ok (map g l).
Proof.
  revert s. induction l as [|b l IH]; intros s Hf; simpl.
  - reflexivity.
  - assert (Hhead : f s = Ok (g b)).
    { rewrite <- (Nat.add_0_r s). now apply Hf. }
    rewrite Hhead. simpl.
    rewrite (IH (S s)); [reflexivity|].
    intros i b' Hi.
    replace (S s + i)%nat with (s + S i)%nat by lia. now apply Hf.
Qed.

Lemma list_comprehension_range {A B} (g : B -> A) (f : nat -> result A)
  (l : list B) :
  (forall i b, nth_error l i = Some b -> f i = Ok (g b)) ->
  list_comprehension f (seq 0 (length l)) = Ok (map g l).
Proof.
  intros Hf. apply list_comprehension_shift. intros i b. apply Hf.
Qed.

(** *** [np.linspace] *)

Lemma set_last_firstn (v : list F) (x0 : F) :
  v <> [] -> set_last v x0 = firstn (pred (length v)) v ++ [x0].
Proof.
  destruct v as [|a v]; [congruence|]. intros _.
  unfold set_last. now rewrite removelast_firstn_len.
Qed.

Lemma set_last_length (v : list F) (x0 : F) :
  length (set_last v x0) = length v.
Proof.
  destruct v as [|a v]; [reflexivity|].
  rewrite set_last_firstn by discriminate.
  rewrite length_app, length_firstn. cbn [length]. lia.
Qed.

Lemma set_last_nth_last (v : list F) (x0 : F) :
  v <> [] -> nth_error (set_last v x0) (pred (length v)) = Some x0.
Proof.
  intros Hv. rewrite (set_last_firstn _ _ Hv).
  assert (Hlen : length (firstn (pred (length v)) v) = pred (length v))
    by (rewrite length_firstn; lia).
  rewrite nth_error_app2 by lia. rewrite Hlen, Nat.sub_diag. reflexivity.
Qed.

Lemma set_last_nth_before (v : list F) (x0 : F) (i : nat) :
  (i < pred (length v))%nat ->
  nth_error (set_last v x0) i = nth_error v i.
Proof.
  intros Hi. rewrite set_last_firstn by (destruct v; [simpl in Hi; lia | discriminate]).
  rewrite nth_error_app1 by (rewrite length_firstn; lia).
  rewrite nth_error_firstn.
  now replace (i <? pred (length v))%nat with true
    by (symmetry; apply Nat.ltb_lt; lia).
Qed.

Lemma np_arange_length (n : nat) : length (np_arange n) = n.
Proof. unfold np_arange. now rewrite length_map, length_seq. Qed.

Lemma np_arange_nth (n i : nat) :
  (i < n)%nat -> nth_error (np_arange n) i = Some (of_Z (Z.of_nat i)).
Proof.
  intros Hi. unfold np_arange. rewrite nth_error_map, nth_error_seq.
  now replace (i <? n)%nat with true by (symmetry; apply Nat.ltb_lt; lia).
Qed.

(** A non-negative count gives that many samples. *)
Lemma np_linspace_length (start stop : F) (num : Z) :
  0 <= num ->
  exists ts, np_linspace start stop num = Ok ts /\
             length ts = Z.to_nat num.
Proof.
  intros Hnum. unfold np_linspace.
  replace (num <? 0) with false by (symmetry; apply Z.ltb_ge; lia).
  eexists. split; [reflexivity|].
  destruct (1 <? num); [rewrite set_last_length|];
    rewrite length_map;
    repeat match goal with
    | |- context [if ?b then _ else _] => destruct b
    end; now rewrite length_map, np_arange_length.
Qed.

(** With at least two samples the last one is [stop]. *)
Lemma np_linspace_last (start stop : F) (num : Z) (ts : ndarray) :
  1 < num -> np_linspace start stop num = Ok ts ->
  nth_error ts (Z.to_nat (num - 1)) = Some stop.
Proof.
  intros Hnum. unfold np_linspace.
  replace (num <? 0) with false by (symmetry; apply Z.ltb_ge; lia).
  replace (1 <? num) with true by (symmetry; apply Z.ltb_lt; lia).
  intros [= <-].
  match goal with
  | |- nth_error (set_last ?v _) _ = _ => set (w := v)
  end.
  assert (Hlen : length w = Z.to_nat num).
  { subst w. rewrite length_map.
    repeat match goal with
    | |- context [if ?b then _ else _] => destruct b
    end; now rewrite length_map, np_arange_length. }
  replace (Z.to_nat (num - 1)) with (pred (length w)) by lia.
  apply set_last_nth_last.
  intros Hnil. rewrite Hnil in Hlen. simpl in Hlen. lia.
Qed.

(** With at least two samples and a step that is not zero, every sample
    before the last is [i * step + start]. *)
Lemma np_linspace_nth (start stop : F) (num : Z) (ts : ndarray) (i : nat) :
  1 < num ->
  feq (fdiv (fsub stop start) (of_Z (num - 1))) (of_Z 0) = false ->
  np_linspace start stop num = Ok ts ->
  (i < Z.to_nat (num - 1))%nat ->
  nth_error ts i
  = Some (fadd (fmul (of_Z (Z.of_nat i))
                     (fdiv (fsub stop start) (of_Z (num - 1))))
               start).
Proof.
  intros Hnum Hstep. unfold np_linspace.
  replace (num <? 0) with false by (symmetry; apply Z.ltb_ge; lia).
  replace (1 <? num) with true by (symmetry; apply Z.ltb_lt; lia).
  replace (0 <? num - 1) with true by (symmetry; apply Z.ltb_lt; lia).
  rewrite Hstep. intros [= <-] Hi.
  rewrite set_last_nth_before
    by (rewrite !length_map, np_arange_length; lia).
  rewrite !nth_error_map, np_arange_nth by lia. reflexivity.
Qed.

End ListFacts.

(* ================================================================== *)
(** ** SteinerCurve *)

Section CurveProperties.

Context {F : Type} `{NumF : Numeric F}.

Lemma invalid_parameters_false (R r d : F) :
  invalid_parameters R r d = false ->
  fle R (of_Z 0) = false /\ fle r (of_Z 0) = false /\
  fle d (of_Z 0) = false /\ fgt d r = false.
Proof.
  unfold invalid_parameters. intros Hv.
  apply orb_false_elim in Hv as [Hv Hgt].
  apply orb_false_elim in Hv as [Hv Hd].
  apply orb_false_elim in Hv as [HR Hr].
  auto.
Qed.

(** With valid parameters the quotient [(R - r) / r] is computed: the
    divisor does not compare equal to zero. *)
Lemma valid_curve_py_div `{!NumericLaws F} (self : SteinerCurve) :
  valid_curve self ->
  py_div (fsub (self_R self) (self_r self)) (self_r self)
  = Ok (fdiv (fsub (self_R self) (self_r self)) (self_r self)).
Proof.
  intros Hv. apply invalid_parameters_false in Hv as (_ & Hr & _ & _).
  unfold py_div.
  destruct (feq (self_r self) (of_Z 0)) eqn:Heq; [|reflexivity].
  apply feq_zero_fle in Heq. congruence.
Qed.

(** The evaluation succeeds exactly when the quotient does, and then
    every point is the formula's value at its angle. *)
Lemma calculate_cartesian_quotient (self : SteinerCurve) (ts : ndarray) :
  py_div (fsub (self_R self) (self_r self)) (self_r self)
  = Ok (fdiv (fsub (self_R self) (self_r self)) (self_r self)) ->
  calculate_cartesian self ts = Ok (map (spec_point self) ts).
Proof.
  intros Hdiv. unfold calculate_cartesian. rewrite Hdiv. cbn [rbind].
  unfold np_add_arr, np_sub_arr, np_scale, np_cos_arr, np_sin_arr.
  rewrite !map_map, !np_zip_map.
  apply list_comprehension_range. intros i t Hi.
  rewrite !(py_getitem_map _ _ _ _ Hi). reflexivity.
Qed.

Lemma calculate_cartesian_raise (self : SteinerCurve) (ts : ndarray) e :
  py_div (fsub (self_R self) (self_r self)) (self_r self) = Raise e ->
  calculate_cartesian self ts = Raise e.
Proof.
  intros Hdiv. unfold calculate_cartesian. now rewrite Hdiv.
Qed.

Lemma py_div_cases (a b : F) :
  py_div a b = Ok (fdiv a b) \/ py_div a b = Raise ZeroDivisionError.
Proof.
  unfold py_div. destruct (feq b (of_Z 0)); auto.
Qed.

(** For every curve object, valid or not: the outcome is the formula's
    points, or the division's exception. *)
Lemma calculate_cartesian_cases (self : SteinerCurve) (ts : ndarray) :
  calculate_cartesian self ts = Ok (map (spec_point self) ts) \/
  calculate_cartesian self ts = Raise ZeroDivisionError.
Proof.
  destruct (py_div_cases (fsub (self_R self) (self_r self)) (self_r self))
    as [Hok | Hraise].
  - left. now apply calculate_cartesian_quotient.
  - right. now apply calculate_cartesian_raise.
Qed.

(** The outcome does not depend on the angles: whether the evaluation
    raises is decided by the parameters alone. *)
Lemma calculate_cartesian_raise_any (self : SteinerCurve) (ts ts' : ndarray) e :
  calculate_cartesian self ts = Raise e ->
  calculate_cartesian self ts' = Raise e.
Proof.
  destruct (py_div_cases (fsub (self_R self) (self_r self)) (self_r self))
    as [Hok | Hraise].
  - rewrite (calculate_cartesian_quotient self ts Hok). discriminate.
  - rewrite (calculate_cartesian_raise self ts _ Hraise).
    rewrite (calculate_cartesian_raise self ts' _ Hraise). auto.
Qed.


(** C2.  For a valid parameter triple and any sequence of angles,
    [calculate_polar] returns the radii [sqrt(x^2 + y^2)] and the angles
    [atan2(y, x)] of the very points [calculate_cartesian] returns for the
    same angles, index by index, both of the length of the input. *)
Theorem calculate_polar_from_cartesian `{!NumericLaws F}
  (self : SteinerCurve) (t_values : ndarray) :
  valid_curve self ->
  exists (ps : list Point) (rho theta : list F),
    calculate_cartesian self t_values = Ok ps /\
    calculate_polar self t_values = Ok (rho, theta) /\
    length ps = length t_values /\
    length rho = length t_values /\
    length theta = length t_values /\
    forall i p, nth_error ps i = Some p ->
      nth_error rho i
      = Some (np_sqrt (fadd (fpow (x p) 2) (fpow (y p) 2))) /\
      nth_error theta i = Some (np_arctan2 (y p) (x p)).
Proof.
  intros Hv. pose proof (valid_curve_py_div self Hv) as Hdiv.
  pose proof (calculate_cartesian_quotient self t_values Hdiv) as Hc.
  exists (map (spec_point self) t_values).
  exists (map spec_radius (map (spec_point self) t_values)).
  exists (map spec_angle (map (spec_point self) t_values)).
  repeat split.
  - exact Hc.
  - unfold calculate_polar. rewrite Hc. reflexivity.
  - apply length_map.
  - now rewrite !length_map.
  - now rewrite !length_map.
  - now rewrite (map_nth_error spec_radius _ _ H).
  - now rewrite (map_nth_error spec_angle _ _ H).
Qed.

(** [set_parameters] on an accepted and on a rejected triple. *)
Lemma set_parameters_accepts (R r d : F) (self : SteinerCurve) :
  invalid_parameters R r d = false ->
  set_parameters R r d self = (Ok tt, mkSteinerCurve R r d).
Proof.
  intros Hv. apply invalid_parameters_false in Hv as (HR & Hr & Hd & Hgt).
  unfold set_parameters. rewrite HR, Hr, Hd, Hgt. reflexivity.
Qed.

Lemma set_parameters_rejects (R r d : F) (self : SteinerCurve) :
  invalid_parameters R r d = true ->
  exists e, set_parameters R r d self = (Raise e, self).
Proof.
  unfold invalid_parameters, set_parameters. intros Hi.
  destruct (fle R (of_Z 0) || fle r (of_Z 0) || fle d (of_Z 0)).
  - now exists ValueError_not_positive.
  - cbn [orb] in Hi. rewrite Hi. now exists ValueError_d_exceeds_r.
Qed.


(** C8.  For every parameter triple and any sequence of angles,
    [calculate_rolling_circle] returns the abscissas [(R - r) cos t] and
    the ordinates [(R - r) sin t]; after [set_parameters(3, 1, 1)], at the
    single angle 0, these are 2 and 0. *)
Theorem calculate_rolling_circle_formula `{!ExactArith F}
  (self : SteinerCurve) (t_values : ndarray) :
  calculate_rolling_circle self t_values
  = Ok (map (fun t => fmul (fsub (self_R self) (self_r self)) (np_cos t))
            t_values,
        map (fun t => fmul (fsub (self_R self) (self_r self)) (np_sin t))
            t_values) /\
  exists self',
    set_parameters (of_Z 3) (of_Z 1) (of_Z 1) self = (Ok tt, self') /\
    calculate_rolling_circle self' [of_Z 0] = Ok ([of_Z 2], [of_Z 0]).
Proof.
  split.
  - unfold calculate_rolling_circle, np_scale, np_cos_arr, np_sin_arr.
    now rewrite !map_map.
  - exists (mkSteinerCurve (of_Z 3) (of_Z 1) (of_Z 1)). split.
    + apply set_parameters_accepts. unfold invalid_parameters.
      rewrite !fle_of_Z, fgt_of_Z by (cbn; lia). reflexivity.
    + unfold calculate_rolling_circle, np_scale, np_cos_arr, np_sin_arr.
      cbn [map self_R self_r]. rewrite (sub_of_Z 3 1) by lia.
      rewrite cos_zero, sin_zero, mul_one_r.
      rewrite (mul_of_Z (3 - 1) 0) by lia. reflexivity.
Qed.

End CurveProperties.

(* ================================================================== *)
(** ** Animator: drawing and seeking *)

Section AnimatorProperties.

Context {F : Type} `{NumF : Numeric F}.

Implicit Type a : @Animator F.

Lemma set_canvas_same a : set_canvas (canvas a) a = a.
Proof. now destruct a. Qed.

(** Drawing touches nothing but the canvases. *)
Lemma draw_current_frame_canvas a :
  exists r c, draw_current_frame a = (r, set_canvas c a).
Proof.
  unfold draw_current_frame, bind, get, lift, modify, ret.
  destruct (py_not (points a) || _).
  { exists (Ok tt), (canvas a). now rewrite set_canvas_same. }
  repeat match goal with
  | |- context [py_getitem ?l ?i] => destruct (py_getitem l i)
  end;
  try (eexists (Raise _), (canvas a); now rewrite set_canvas_same).
  eexists (Ok tt), _. reflexivity.
Qed.

(** Without a sample nothing is drawn and nothing is raised. *)
Lemma draw_current_frame_idle a :
  points a = [] -> draw_current_frame a = (Ok tt, a).
Proof.
  intros Hp. unfold draw_current_frame, bind, get, ret.
  now rewrite Hp.
Qed.

Lemma py_not_false {A} (l : list A) : (0 < length l)%nat -> py_not l = false.
Proof. destruct l; simpl; [lia | reflexivity]. Qed.

(** With a complete sample and the index in range one frame is drawn. *)
Lemma draw_current_frame_complete a :
  sample_complete a -> frame_in_range a ->
  exists f, draw_current_frame a = (Ok tt, canvas_draw f a).
Proof.
  intros (Hp & Hx & Hy & Ht & Hr) Hin. unfold frame_in_range in Hin.
  assert (Hidx : forall A (l : list A),
            length l = Z.to_nat (total_steps a) ->
            exists v, py_getitem l (current_step a) = Ok v).
  { intros A l Hl. apply py_getitem_in_range. lia. }
  destruct (Hidx _ _ Hp) as [p Hgp]. destruct (Hidx _ _ Hx) as [cx Hgx].
  destruct (Hidx _ _ Hy) as [cy Hgy]. destruct (Hidx _ _ Ht) as [th Hgt].
  destruct (Hidx _ _ Hr) as [rh Hgr].
  exists (mkFrame p (cx, cy) (th, rh)).
  unfold draw_current_frame, bind, get, lift, modify.
  rewrite py_not_false by lia.
  replace (Z.of_nat (length (points a)) <=? current_step a) with false
    by (symmetry; apply Z.leb_gt; lia).
  cbn [orb]. now rewrite Hgp, Hgx, Hgy, Hgt, Hgr.
Qed.

(** [set_frame] is one assignment followed by a drawing. *)
Lemma set_frame_unfold (step : Z) a :
  total_steps a <> 0 ->
  set_frame step a
  = draw_current_frame (set_current_step (step mod total_steps a) a).
Proof.
  intros Hn. unfold set_frame, bind, get, lift, modify, py_mod.
  apply Z.eqb_neq in Hn. now rewrite Hn.
Qed.

Lemma set_frame_zero_steps (step : Z) a :
  total_steps a = 0 -> set_frame step a = (Raise ZeroDivisionError, a).
Proof.
  intros Hn. unfold set_frame, bind, get, lift, py_mod. now rewrite Hn.
Qed.

(** The frame index and the frame count after [set_frame], whatever the
    outcome. *)
Lemma set_frame_fields (step : Z) a :
  exists r c,
    set_frame step a = (r, set_canvas c (set_current_step
       (if total_steps a =? 0 then current_step a
        else step mod total_steps a) a)).
Proof.
  destruct (Z.eqb_spec (total_steps a) 0) as [Hz | Hnz].
  - rewrite (set_frame_zero_steps _ _ Hz).
    exists (Raise ZeroDivisionError), (canvas a). now destruct a.
  - rewrite (set_frame_unfold _ _ Hnz). apply draw_current_frame_canvas.
Qed.

(** C5 (as the code has it).  [set_frame(step)] before any sample was
    generated raises nothing: it stores [step mod total_steps] as the
    current step, draws no frame and returns. *)
Theorem set_frame_idle_returns (step : Z) a :
  Idle a -> total_steps a <> 0 ->
  set_frame step a
  = (Ok tt, set_current_step (step mod total_steps a) a).
Proof.
  intros Hidle Hn. rewrite (set_frame_unfold _ _ Hn).
  now apply draw_current_frame_idle.
Qed.

(** C7.  With a sample present in a well-formed animator,
    [set_frame(step)] returns and leaves
    [current_step = step mod total_steps] for every integer [step] (a
    value within the step count), and [set_frame(total_steps)] ends
    exactly as [set_frame(0)] does. *)
Theorem set_frame_wraps (step : Z) a :
  sample_present a -> well_formed a ->
  fst (set_frame step a) = Ok tt /\
  current_step (snd (set_frame step a)) = step mod total_steps a /\
  0 <= current_step (snd (set_frame step a)) < total_steps a /\
  set_frame (total_steps a) a = set_frame 0 a.
Proof.
  intros Hp (Hn & _ & Hcomplete). pose proof (Hcomplete Hp) as Hc.
  assert (Hnz : total_steps a <> 0) by lia.
  assert (Hin : frame_in_range
                  (set_current_step (step mod total_steps a) a)).
  { unfold frame_in_range. cbn. apply Z.mod_pos_bound. lia. }
  destruct (draw_current_frame_complete
              (set_current_step (step mod total_steps a) a) Hc Hin)
    as [f Hf].
  rewrite !(set_frame_unfold _ _ Hnz), Hf. cbn [fst snd].
  split; [reflexivity|]. split; [reflexivity|].
  split; [exact Hin|].
  rewrite Z.mod_same by lia. reflexivity.
Qed.

(** C10.  [stop_animation()] leaves the current step, the sample (points,
    polar arrays, rolling-circle arrays), the curve, the step count, the
    slider, the canvases and the dialogs as they were; when the animation
    was not running it returns [False] and the animator is unchanged, and
    when it was running it returns [True] with the flag cleared. *)
Theorem stop_animation_frame a :
  let a' := snd (stop_animation a) in
  current_step a' = current_step a /\
  points a' = points a /\
  polar_r a' = polar_r a /\ polar_theta a' = polar_theta a /\
  rolling_circle_x a' = rolling_circle_x a /\
  rolling_circle_y a' = rolling_circle_y a /\
  curve a' = curve a /\
  total_steps a' = total_steps a /\
  slider a' = slider a /\ canvas a' = canvas a /\ dialogs a' = dialogs a /\
  animation_running a' = false /\
  (animation_running a = false -> stop_animation a = (Ok false, a)) /\
  (animation_running a = true -> fst (stop_animation a) = Ok true).
Proof.
  unfold stop_animation, bind, get, modify, ret.
  destruct (animation_running a) eqn:Hrun; cbn;
    repeat split; auto; discriminate.
Qed.

(* ================================================================== *)
(** ** Animator: generating the sample *)

(** On the angle domain [ts], [generate_points] either stores the three
    evaluations and returns [True], or, when the first evaluation raises,
    changes nothing but the dialogs and returns [False]. *)
Lemma generate_points_outcome a (ts : ndarray) :
  np_linspace (of_Z 0) (fmul (of_Z 2) np_pi) (total_steps a) = Ok ts ->
  (calculate_cartesian (curve a) ts = Ok (map (spec_point (curve a)) ts) /\
   generate_points a
   = (Ok true,
      set_rolling_circle
        (map (fun t => fmul (fsub (self_R (curve a)) (self_r (curve a)))
                            (np_cos t)) ts,
         map (fun t => fmul (fsub (self_R (curve a)) (self_r (curve a)))
                            (np_sin t)) ts)
        (set_polar
           (map spec_radius (map (spec_point (curve a)) ts),
            map spec_angle (map (spec_point (curve a)) ts))
           (set_points (map (spec_point (curve a)) ts) a)))) \/
  (calculate_cartesian (curve a) ts = Raise ZeroDivisionError /\
   generate_points a
   = (Ok false, QMessageBox_critical ZeroDivisionError a)).
Proof.
  intros Hlin.
  unfold generate_points, try_except, bind, get, lift, modify, ret.
  rewrite Hlin.
  destruct (calculate_cartesian_cases (curve a) ts) as [Hok | Hraise].
  - left. split; [exact Hok|].
    unfold calculate_polar. rewrite Hok. cbn [rbind].
    unfold calculate_rolling_circle, np_scale, np_cos_arr, np_sin_arr.
    now rewrite !map_map.
  - right. split; [exact Hraise|]. now rewrite Hraise.
Qed.

(** [generate_points] never raises, and whatever it returns it leaves the
    curve, the slider, the current step, the step count, the timer, the
    running flag and the canvases as they were. *)
Lemma generate_points_shape a :
  exists b ps rt xy dl,
    generate_points a
    = (Ok b, mkAnimator (curve a) (slider a) (current_step a)
               (total_steps a) (timer_active a) (animation_running a)
               ps (fst rt) (snd rt) (fst xy) (snd xy) (canvas a) dl).
Proof.
  destruct (np_linspace (of_Z 0) (fmul (of_Z 2) np_pi) (total_steps a))
    as [ts | e] eqn:Hlin.
  - destruct (generate_points_outcome a ts Hlin) as [[_ Hg] | [_ Hg]];
      rewrite Hg.
    + now eexists true, _, (_, _), (_, _), _.
    + now exists false, (points a), (polar_r a, polar_theta a),
        (rolling_circle_x a, rolling_circle_y a),
        (ZeroDivisionError :: dialogs a).
  - exists false, (points a), (polar_r a, polar_theta a),
      (rolling_circle_x a, rolling_circle_y a), (e :: dialogs a).
    unfold generate_points, try_except, bind, get, lift, modify, ret.
    now rewrite Hlin.
Qed.

(** A successful [generate_points] leaves a complete sample. *)
Lemma generate_points_complete a a' :
  generate_points a = (Ok true, a') -> sample_complete a'.
Proof.
  intros Hg.
  destruct (np_linspace (of_Z 0) (fmul (of_Z 2) np_pi) (total_steps a))
    as [ts | e] eqn:Hlin.
  - assert (Hlen : length ts = Z.to_nat (total_steps a)).
    { destruct (Z.ltb_spec (total_steps a) 0) as [Hneg | Hpos].
      - unfold np_linspace in Hlin.
        apply Z.ltb_lt in Hneg. rewrite Hneg in Hlin. discriminate.
      - destruct (np_linspace_length (of_Z 0) (fmul (of_Z 2) np_pi)
                    (total_steps a) Hpos) as (ts' & Hts' & Hl).
        congruence. }
    destruct (generate_points_outcome a ts Hlin) as [[_ Hg'] | [_ Hg']];
      rewrite Hg' in Hg; inversion Hg; subst a'.
    unfold sample_complete. cbn. now rewrite !length_map.
  - unfold generate_points, try_except, bind, get, lift, modify, ret in Hg.
    rewrite Hlin in Hg. discriminate.
Qed.

(* ================================================================== *)
(** ** Animator: the frame index stays within the frame count *)

Lemma draw_current_frame_invariant a :
  frame_invariant a -> frame_invariant (snd (draw_current_frame a)).
Proof.
  intros Hinv. destruct (draw_current_frame_canvas a) as (r & c & Hd).
  now rewrite Hd.
Qed.

Lemma set_frame_invariant (step : Z) a :
  frame_invariant a -> frame_invariant (snd (set_frame step a)).
Proof.
  intros [Hn Hcs]. destruct (set_frame_fields step a) as (r & c & Hf).
  rewrite Hf, Hn. cbn. unfold frame_invariant. cbn.
  split; [exact Hn|]. apply Z.mod_pos_bound. lia.
Qed.

Lemma slider_setValue_invariant (v : Z) a :
  frame_invariant a -> frame_invariant (snd (slider_setValue v a)).
Proof.
  intros Hinv. unfold slider_setValue, bind, get, modify, ret.
  destruct (_ =? value (slider a)); [exact Hinv|].
  now apply set_frame_invariant.
Qed.

Lemma update_frame_invariant a :
  frame_invariant a -> frame_invariant (snd (update_frame a)).
Proof.
  intros [Hn Hcs].
  unfold update_frame, bind, get, lift, modify, ret, py_mod.
  destruct (animation_running a); cbn [negb]; [|now split].
  rewrite Hn. cbn [Z.eqb].
  set (a1 := set_current_step ((current_step a + 1) mod 300) a).
  assert (Hinv1 : frame_invariant a1).
  { split; [exact Hn|]. cbn. apply Z.mod_pos_bound. lia. }
  pose proof (slider_setValue_invariant (current_step a1) a1 Hinv1) as Hs.
  destruct (slider_setValue (current_step a1) a1) as [[[]|e] a2];
    cbn [snd] in *.
  - now apply draw_current_frame_invariant.
  - exact Hs.
Qed.

Lemma generate_points_invariant a :
  frame_invariant a -> frame_invariant (snd (generate_points a)).
Proof.
  intros Hinv.
  destruct (generate_points_shape a) as (b & ps & rt & xy & dl & Hg).
  now rewrite Hg.
Qed.

Lemma stop_animation_invariant a :
  frame_invariant a -> frame_invariant (snd (stop_animation a)).
Proof.
  intros Hinv. unfold stop_animation, bind, get, modify, ret.
  now destruct (animation_running a).
Qed.

Lemma start_animation_invariant a :
  frame_invariant a -> frame_invariant (snd (start_animation a)).
Proof.
  intros Hinv. unfold start_animation, bind, get, modify, ret.
  destruct (py_not (points a)).
  - destruct (generate_points_shape a) as (b & ps & rt & xy & dl & Hg).
    rewrite Hg. destruct b; cbn [negb snd]; [|exact Hinv].
    now destruct (animation_running a).
  - cbn [negb]. now destruct (animation_running a).
Qed.

(** C9.  The animator starts with [total_steps = 300] and
    [0 <= current_step < 300], and each of [generate_points],
    [start_animation], [stop_animation], [update_frame] and [set_frame]
    (for every integer argument) leaves both facts true, whether it
    returns or raises and whether or not a sample is present. *)
Theorem frame_invariant_preserved (c : @SteinerCurve F) (sl : QSlider) a
  (step : Z) :
  frame_invariant (Animator_init c sl) /\
  (frame_invariant a ->
   frame_invariant (snd (generate_points a)) /\
   frame_invariant (snd (start_animation a)) /\
   frame_invariant (snd (stop_animation a)) /\
   frame_invariant (snd (update_frame a)) /\
   frame_invariant (snd (set_frame step a))).
Proof.
  split.
  - unfold frame_invariant. cbn. lia.
  - intros Hinv.
    split; [now apply generate_points_invariant|].
    split; [now apply start_animation_invariant|].
    split; [now apply stop_animation_invariant|].
    split; [now apply update_frame_invariant|].
    now apply set_frame_invariant.
Qed.

(* ================================================================== *)
(** ** Animator: what [generate_points] and [start_animation] do *)

Lemma generate_points_valid `{!NumericLaws F} a :
  0 <= total_steps a -> valid_curve (curve a) ->
  exists a',
    generate_points a = (Ok true, a') /\
    sample_complete a' /\
    curve a' = curve a /\ slider a' = slider a /\
    current_step a' = current_step a /\ total_steps a' = total_steps a /\
    timer_active a' = timer_active a /\
    animation_running a' = animation_running a.
Proof.
  intros Hn Hv.
  destruct (np_linspace_length (of_Z 0) (fmul (of_Z 2) np_pi)
              (total_steps a) Hn) as (ts & Hlin & _).
  destruct (generate_points_outcome a ts Hlin) as [[_ Hg] | [Hraise _]].
  - eexists. split; [exact Hg|].
    split; [exact (generate_points_complete a _ Hg)|].
    repeat split.
  - rewrite (calculate_cartesian_quotient (curve a) ts
               (valid_curve_py_div (curve a) Hv)) in Hraise.
    discriminate.
Qed.

(** "Start" without a sample: the sample is generated and the animation
    runs, from the step the animator was at. *)
Lemma start_animation_idle `{!NumericLaws F} a :
  Idle a -> animation_running a = false ->
  0 <= total_steps a -> valid_curve (curve a) ->
  exists a',
    start_animation a = (Ok true, a') /\
    animation_running a' = true /\
    sample_complete a' /\
    curve a' = curve a /\ slider a' = slider a /\
    current_step a' = current_step a /\ total_steps a' = total_steps a.
Proof.
  intros Hidle Hrun Hn Hv. unfold Idle in Hidle.
  destruct (generate_points_valid a Hn Hv)
    as (a1 & Hg & Hc & Hcurve & Hsl & Hcs & Hts & Htm & Hr1).
  unfold start_animation, bind, get, modify, ret.
  rewrite Hidle. cbn [py_not]. rewrite Hg. cbn [negb].
  rewrite Hr1, Hrun. cbn [negb].
  eexists. split; [reflexivity|]. cbn. repeat split; auto; apply Hc.
Qed.

(** C4 (as the code has it).  [generate_points()] evaluates over the
    domain [np.linspace(0, 2 pi, 300)]: 300 angles, the i-th equal to
    [i * step + 0] with [step = (2 pi - 0) / 299] and the last equal to
    [2 pi].  When [calculate_cartesian] returns on that domain, so do the
    other two evaluations, the three results replace the stored sample and
    the method returns [True]; when it raises, the stored sample is not
    touched, the exception is shown in a dialog and the method returns
    [False].  With valid parameters it is the first case.  In both cases
    the current step and the running flag are the ones from before the
    call. *)
Theorem generate_points_effect `{!NumericLaws F} a :
  total_steps a = 300 ->
  feq (fdiv (fsub (fmul (of_Z 2) np_pi) (of_Z 0)) (of_Z 299)) (of_Z 0)
  = false ->
  exists ts,
    np_linspace (of_Z 0) (fmul (of_Z 2) np_pi) (total_steps a) = Ok ts /\
    length ts = 300%nat /\
    (forall i, (i < 299)%nat ->
       nth_error ts i
       = Some (fadd (fmul (of_Z (Z.of_nat i))
                      (fdiv (fsub (fmul (of_Z 2) np_pi) (of_Z 0))
                            (of_Z 299)))
                    (of_Z 0))) /\
    nth_error ts 299 = Some (fmul (of_Z 2) np_pi) /\
    ((exists ps rt xy,
        calculate_cartesian (curve a) ts = Ok ps /\
        calculate_polar (curve a) ts = Ok rt /\
        calculate_rolling_circle (curve a) ts = Ok xy /\
        generate_points a
        = (Ok true, set_rolling_circle xy (set_polar rt (set_points ps a))))
     \/
     (exists e,
        calculate_cartesian (curve a) ts = Raise e /\
        generate_points a = (Ok false, QMessageBox_critical e a))) /\
    (valid_curve (curve a) -> fst (generate_points a) = Ok true) /\
    current_step (snd (generate_points a)) = current_step a /\
    animation_running (snd (generate_points a)) = animation_running a.
Proof.
  intros Hn Hstep.
  destruct (np_linspace_length (of_Z 0) (fmul (of_Z 2) np_pi)
              (total_steps a)) as (ts & Hlin & Hlen); [lia|].
  exists ts. rewrite Hn in Hlen.
  split; [exact Hlin|]. split; [exact Hlen|].
  rewrite Hn in Hlin.
  split.
  { intros i Hi.
    apply (np_linspace_nth (of_Z 0) (fmul (of_Z 2) np_pi) 300 ts i);
      [lia | exact Hstep | exact Hlin | exact Hi]. }
  split.
  { apply (np_linspace_last (of_Z 0) (fmul (of_Z 2) np_pi) 300 ts);
      [lia | exact Hlin]. }
  rewrite <- Hn in Hlin.
  split; [|split; [|split]].
  - destruct (generate_points_outcome a ts Hlin) as [[Hc Hg] | [Hc Hg]].
    + left. do 3 eexists. split; [exact Hc|].
      split; [unfold calculate_polar; rewrite Hc; reflexivity|].
      split; [|exact Hg].
      unfold calculate_rolling_circle, np_scale, np_cos_arr, np_sin_arr.
      now rewrite !map_map.
    + right. now exists ZeroDivisionError.
  - intros Hv.
    destruct (generate_points_valid a) as (a' & Hg & _); [lia | exact Hv|].
    now rewrite Hg.
  - destruct (generate_points_shape a) as (b & ps & rt & xy & dl & Hg).
    now rewrite Hg.
  - destruct (generate_points_shape a) as (b & ps & rt & xy & dl & Hg).
    now rewrite Hg.
Qed.

(* ================================================================== *)
(** ** Animator: what drawing, seeking and ticking leave alone *)

Lemma steps_only_refl a : steps_only a a.
Proof. unfold steps_only. repeat split. Qed.

Lemma steps_only_trans a1 a2 a3 :
  steps_only a1 a2 -> steps_only a2 a3 -> steps_only a1 a3.
Proof.
  unfold steps_only. intros H12 H23.
  decompose [and] H12. decompose [and] H23.
  repeat split; congruence.
Qed.

Lemma steps_only_set_canvas (c : list Frame) a :
  steps_only a (set_canvas c a).
Proof. unfold steps_only. repeat split. Qed.

Lemma steps_only_set_current_step (v : Z) a :
  steps_only a (set_current_step v a).
Proof. unfold steps_only. repeat split. Qed.

Lemma steps_only_set_slider_value (v : Z) a :
  steps_only a (set_slider_value v a).
Proof. unfold steps_only. repeat split. Qed.

Lemma draw_current_frame_steps a : steps_only a (snd (draw_current_frame a)).
Proof.
  destruct (draw_current_frame_canvas a) as (r & c & Hd). rewrite Hd.
  apply steps_only_set_canvas.
Qed.

Lemma set_frame_steps (step : Z) a : steps_only a (snd (set_frame step a)).
Proof.
  destruct (set_frame_fields step a) as (r & c & Hf). rewrite Hf.
  eapply steps_only_trans; [apply steps_only_set_current_step|].
  apply steps_only_set_canvas.
Qed.

Lemma slider_setValue_steps (v : Z) a :
  steps_only a (snd (slider_setValue v a)).
Proof.
  unfold slider_setValue, bind, get, modify, ret.
  destruct (_ =? value (slider a)); [apply steps_only_refl|].
  eapply steps_only_trans; [apply steps_only_set_slider_value|].
  apply set_frame_steps.
Qed.

Lemma update_frame_steps a : steps_only a (snd (update_frame a)).
Proof.
  unfold update_frame, bind, get, lift, modify, ret, py_mod.
  destruct (animation_running a); cbn [negb]; [|apply steps_only_refl].
  destruct (total_steps a =? 0); [apply steps_only_refl|].
  set (a1 := set_current_step _ a).
  pose proof (slider_setValue_steps (current_step a1) a1) as Hs.
  assert (H1 : steps_only a a1) by apply steps_only_set_current_step.
  destruct (slider_setValue (current_step a1) a1) as [[[]|e] a2];
    cbn [snd] in *.
  - eapply steps_only_trans; [exact H1|].
    eapply steps_only_trans; [exact Hs|]. apply draw_current_frame_steps.
  - eapply steps_only_trans; [exact H1 | exact Hs].
Qed.

Lemma well_formed_steps_only a a' :
  steps_only a a' -> well_formed a -> well_formed a'.
Proof.
  intros (_ & Hmn & Hmx & Hts & _ & _ & Hp & Hpr & Hpt & Hx & Hy & _)
         (Hn & (Hmin & Hmax) & Hc).
  unfold well_formed, slider_covers, sample_present, sample_complete in *.
  rewrite Hmn, Hmx, Hts, Hp, Hpr, Hpt, Hx, Hy.
  split; [exact Hn|]. split; [split; assumption | exact Hc].
Qed.

Lemma Running_steps_only a a' :
  steps_only a a' -> Running a -> Running a'.
Proof.
  unfold steps_only, Running, sample_present.
  intros Hs (Hp & Hr). decompose [and] Hs. split; congruence.
Qed.

(* ================================================================== *)
(** ** Animator: the timer's tick *)

(** One firing of the timer while running: the method returns, the step
    has advanced by one, wrapping at the step count, and nothing else of
    the model has changed. *)
Lemma update_frame_running a :
  Running a -> well_formed a ->
  exists a',
    update_frame a = (Ok tt, a') /\
    current_step a' = (current_step a + 1) mod total_steps a /\
    steps_only a a'.
Proof.
  intros (Hp & Hrun) (Hn & (Hmin & Hmax) & Hcomplete).
  pose proof (Hcomplete Hp) as Hc.
  set (n := total_steps a) in *.
  set (m := (current_step a + 1) mod n).
  assert (Hm : 0 <= m < n) by (apply Z.mod_pos_bound; lia).
  assert (Hnz : (n =? 0) = false) by (apply Z.eqb_neq; lia).
  assert (Hdraw : forall b : @Animator F,
            total_steps b = n -> current_step b = m ->
            sample_complete b ->
            exists f, draw_current_frame b = (Ok tt, canvas_draw f b)).
  { intros b Hbn Hbm Hbc. apply draw_current_frame_complete; [exact Hbc|].
    unfold frame_in_range. rewrite Hbn, Hbm. exact Hm. }
  assert (Hu : exists a', update_frame a = (Ok tt, a') /\
                          current_step a' = m).
  { unfold update_frame, bind, get, lift, modify, py_mod.
    rewrite Hrun. cbn [negb]. fold n. rewrite Hnz. fold m.
    unfold slider_setValue, bind, get, modify, ret.
    cbn [slider current_step set_current_step].
    replace (Z.max (minimum (slider a)) (Z.min (maximum (slider a)) m))
      with m by lia.
    destruct (m =? value (slider a)).
    - destruct (Hdraw (set_current_step m a) eq_refl eq_refl Hc) as [f Hf].
      rewrite Hf. eexists. split; reflexivity.
    - rewrite set_frame_unfold by (cbn; fold n; lia).
      cbn [total_steps set_slider_value set_current_step]. fold n.
      rewrite (Z.mod_small m n Hm).
      destruct (Hdraw (set_current_step m (set_slider_value m
                         (set_current_step m a))) eq_refl eq_refl Hc)
        as [f Hf].
      rewrite Hf.
      destruct (Hdraw (canvas_draw f (set_current_step m
                         (set_slider_value m (set_current_step m a))))
                  eq_refl eq_refl Hc) as [f' Hf'].
      rewrite Hf'. eexists. split; reflexivity. }
  destruct Hu as (a' & Hu & Hcs). exists a'.
  split; [exact Hu|]. split; [exact Hcs|].
  pose proof (update_frame_steps a) as Hsteps. now rewrite Hu in Hsteps.
Qed.

(** [k] firings advance the step by [k], modulo the step count. *)
Lemma ticks_running (k : nat) a :
  Running a -> well_formed a -> frame_in_range a ->
  exists a',
    ticks k a = (Ok tt, a') /\
    current_step a' = (current_step a + Z.of_nat k) mod total_steps a /\
    steps_only a a'.
Proof.
  revert a. induction k as [|k IH]; intros a Hrun Hwf Hin.
  - exists a. cbn [ticks]. unfold ret. split; [reflexivity|].
    split; [|apply steps_only_refl].
    unfold frame_in_range in Hin.
    rewrite Z.add_0_r, Z.mod_small by lia. reflexivity.
  - destruct (update_frame_running a Hrun Hwf) as (a1 & Hu & Hcs1 & Hs1).
    assert (Hn1 : total_steps a1 = total_steps a) by apply Hs1.
    assert (Hpos : 1 <= total_steps a) by apply Hwf.
    assert (Hin1 : frame_in_range a1).
    { unfold frame_in_range. rewrite Hcs1, Hn1.
      apply Z.mod_pos_bound. lia. }
    destruct (IH a1 (Running_steps_only a a1 Hs1 Hrun)
                 (well_formed_steps_only a a1 Hs1 Hwf) Hin1)
      as (a' & Ht & Hcs & Hs).
    exists a'. cbn [ticks]. unfold bind. rewrite Hu, Ht.
    split; [reflexivity|].
    split; [|exact (steps_only_trans a a1 a' Hs1 Hs)].
    rewrite Hcs, Hcs1, Hn1.
    rewrite Zplus_mod_idemp_l. f_equal. lia.
Qed.

(** C6.  In the [Running] state (a sample present and the running flag
    set) of a well-formed animator, [update_frame()] returns with
    [current_step = (current_step + 1) mod total_steps] and the animator
    still [Running]; so, for every step count [>= 1], [total_steps]
    firings that start at step 0 end at step 0. *)
Theorem update_frame_advances a :
  Running a -> well_formed a ->
  (exists a',
     update_frame a = (Ok tt, a') /\
     current_step a' = (current_step a + 1) mod total_steps a /\
     Running a' /\ well_formed a') /\
  (current_step a = 0 ->
   exists a',
     ticks (Z.to_nat (total_steps a)) a = (Ok tt, a') /\
     current_step a' = 0 /\ Running a').
Proof.
  intros Hrun Hwf.
  assert (Hpos : 1 <= total_steps a) by apply Hwf.
  split.
  - destruct (update_frame_running a Hrun Hwf) as (a' & Hu & Hcs & Hs).
    exists a'. split; [exact Hu|]. split; [exact Hcs|].
    split; [exact (Running_steps_only a a' Hs Hrun)
           | exact (well_formed_steps_only a a' Hs Hwf)].
  - intros Hzero.
    assert (Hin : frame_in_range a)
      by (unfold frame_in_range; rewrite Hzero; lia).
    destruct (ticks_running (Z.to_nat (total_steps a)) a Hrun Hwf Hin)
      as (a' & Ht & Hcs & Hs).
    exists a'. split; [exact Ht|].
    split; [|exact (Running_steps_only a a' Hs Hrun)].
    rewrite Hcs, Hzero, Z2Nat.id, Z.add_0_l, Z.mod_same by lia.
    reflexivity.
Qed.

(** When the animation is not running the timer's slot does nothing. *)
Lemma update_frame_paused a :
  animation_running a = false -> update_frame a = (Ok tt, a).
Proof.
  intros Hrun. unfold update_frame, bind, get, ret. now rewrite Hrun.
Qed.

(* ================================================================== *)
(** ** Animator: well-formedness is kept *)

Lemma generate_points_false a a' :
  generate_points a = (Ok false, a') ->
  exists e, a' = QMessageBox_critical e a.
Proof.
  intros Hg.
  destruct (np_linspace (of_Z 0) (fmul (of_Z 2) np_pi) (total_steps a))
    as [ts | e] eqn:Hlin.
  - destruct (generate_points_outcome a ts Hlin) as [[_ Hg'] | [_ Hg']];
      rewrite Hg' in Hg; inversion Hg.
    now exists ZeroDivisionError.
  - unfold generate_points, try_except, bind, get, lift, modify, ret in Hg.
    rewrite Hlin in Hg. inversion Hg. now exists e.
Qed.

Lemma sample_complete_present a :
  1 <= total_steps a -> sample_complete a -> sample_present a.
Proof.
  intros Hn (Hlen & _) Hnil. rewrite Hnil in Hlen. cbn in Hlen. lia.
Qed.

Lemma generate_points_well_formed a :
  well_formed a -> well_formed (snd (generate_points a)).
Proof.
  intros Hwf.
  destruct (generate_points_shape a) as (b & ps & rt & xy & dl & Hg).
  destruct b.
  - pose proof (generate_points_complete a _ Hg) as Hc.
    rewrite Hg. cbn [snd].
    destruct Hwf as (Hn & Hsl & _).
    split; [exact Hn|]. split; [exact Hsl|]. intros _. exact Hc.
  - destruct (generate_points_false a _ Hg) as [e He].
    rewrite Hg. cbn [snd]. rewrite He. exact Hwf.
Qed.

Lemma stop_animation_well_formed a :
  well_formed a -> well_formed (snd (stop_animation a)).
Proof.
  intros Hwf. unfold stop_animation, bind, get, modify, ret.
  now destruct (animation_running a).
Qed.

Lemma start_animation_well_formed a :
  well_formed a -> well_formed (snd (start_animation a)).
Proof.
  intros Hwf. unfold start_animation, bind, get, modify, ret.
  destruct (py_not (points a)).
  - pose proof (generate_points_well_formed a Hwf) as Hg.
    destruct (generate_points a) as [[[|]|e] a1]; cbn [negb snd] in *;
      try exact Hg.
    now destruct (animation_running a1).
  - cbn [negb]. now destruct (animation_running a).
Qed.

(** X14.  The animator of the window is well formed when created, and each of
    the five operations keeps it so. *)
Lemma well_formed_preserved (c : @SteinerCurve F) (v : Z) a (step : Z) :
  well_formed (Animator_init c (mkQSlider 0 299 v)) /\
  (well_formed a ->
   well_formed (snd (generate_points a)) /\
   well_formed (snd (start_animation a)) /\
   well_formed (snd (stop_animation a)) /\
   well_formed (snd (update_frame a)) /\
   well_formed (snd (set_frame step a))).
Proof.
  split.
  - split; [cbn; lia|]. split; [split; cbn; lia|].
    intros Hp. now contradiction Hp.
  - intros Hwf.
    split; [now apply generate_points_well_formed|].
    split; [now apply start_animation_well_formed|].
    split; [now apply stop_animation_well_formed|].
    split.
    + exact (well_formed_steps_only _ _ (update_frame_steps a) Hwf).
    + exact (well_formed_steps_only _ _ (set_frame_steps step a) Hwf).
Qed.

End AnimatorProperties.

(* ================================================================== *)
(** ** SteinerCurve: validation and evaluation together *)

Section CurveComposition.

Context {F : Type} `{NumF : Numeric F}.

Lemma set_parameters_ok_valid (R r d : F) (self self' : SteinerCurve) :
  set_parameters R r d self = (Ok tt, self') ->
  self' = mkSteinerCurve R r d /\ valid_curve self'.
Proof.
  intros Hset.
  destruct (invalid_parameters R r d) eqn:Hinv.
  - destruct (set_parameters_rejects R r d self Hinv) as [e He].
    rewrite He in Hset. discriminate.
  - rewrite (set_parameters_accepts R r d self Hinv) in Hset.
    inversion Hset. split; [reflexivity | exact Hinv].
Qed.

(** X1.  Once [set_parameters] has accepted a triple, the three evaluations
    return for every sequence of angles: the division by [r] cannot
    raise.  The results have one entry per angle. *)
Theorem accepted_parameters_evaluate `{!NumericLaws F}
  (R r d : F) (self self' : SteinerCurve) (t_values : ndarray) :
  set_parameters R r d self = (Ok tt, self') ->
  exists ps rho theta xs ys,
    calculate_cartesian self' t_values = Ok ps /\
    calculate_polar self' t_values = Ok (rho, theta) /\
    calculate_rolling_circle self' t_values = Ok (xs, ys) /\
    length ps = length t_values /\
    length rho = length t_values /\ length theta = length t_values /\
    length xs = length t_values /\ length ys = length t_values.
Proof.
  intros Hset.
  destruct (set_parameters_ok_valid R r d self self' Hset) as [_ Hv].
  pose proof (calculate_cartesian_quotient self' t_values
                (valid_curve_py_div self' Hv)) as Hc.
  exists (map (spec_point self') t_values).
  exists (map spec_radius (map (spec_point self') t_values)).
  exists (map spec_angle (map (spec_point self') t_values)).
  eexists. eexists.
  split; [exact Hc|].
  split; [unfold calculate_polar; rewrite Hc; reflexivity|].
  split; [reflexivity|].
  unfold np_scale, np_cos_arr, np_sin_arr. now rewrite !length_map.
Qed.

(** X2.  On a curve object whose [r] compares equal to zero (one that did not
    come from [set_parameters]), [calculate_cartesian] and
    [calculate_polar] raise [ZeroDivisionError] for every sequence of
    angles, the empty one included, while [calculate_rolling_circle],
    which does not divide, still returns.  When [r] does not compare
    equal to zero neither raises, whatever the other parameters are. *)
Theorem evaluation_raises_iff_r_zero (self : SteinerCurve)
  (t_values : ndarray) :
  (feq (self_r self) (of_Z 0) = true ->
   calculate_cartesian self t_values = Raise ZeroDivisionError /\
   calculate_polar self t_values = Raise ZeroDivisionError) /\
  (feq (self_r self) (of_Z 0) = false ->
   calculate_cartesian self t_values = Ok (map (spec_point self) t_values) /\
   calculate_polar self t_values
   = Ok (map spec_radius (map (spec_point self) t_values),
         map spec_angle (map (spec_point self) t_values))) /\
  (exists xs ys,
     calculate_rolling_circle self t_values = Ok (xs, ys) /\
     length xs = length t_values /\ length ys = length t_values).
Proof.
  split; [|split].
  - intros Hz.
    assert (Hc : calculate_cartesian self t_values = Raise ZeroDivisionError).
    { apply calculate_cartesian_raise. unfold py_div. now rewrite Hz. }
    split; [exact Hc|]. unfold calculate_polar. now rewrite Hc.
  - intros Hnz.
    assert (Hc : calculate_cartesian self t_values
                 = Ok (map (spec_point self) t_values)).
    { apply calculate_cartesian_quotient. unfold py_div. now rewrite Hnz. }
    split; [exact Hc|]. unfold calculate_polar. now rewrite Hc.
  - eexists. eexists. split; [reflexivity|].
    unfold np_scale, np_cos_arr, np_sin_arr. now rewrite !length_map.
Qed.

End CurveComposition.

(* ================================================================== *)
(** ** Animator: start, stop and regenerate together *)

Section AnimatorComposition.

Context {F : Type} `{NumF : Numeric F}.

Implicit Type a : @Animator F.

Lemma py_not_present a : sample_present a -> py_not (points a) = false.
Proof.
  unfold sample_present. destruct (points a); [congruence | reflexivity].
Qed.

Lemma py_getitem_map_Z {A B} (h : B -> A) (l : list B) (i : Z) (b : B) :
  0 <= i -> nth_error l (Z.to_nat i) = Some b ->
  py_getitem (map h l) i = Ok (h b).
Proof.
  intros Hi Hnth. rewrite <- (Z2Nat.id i) by exact Hi.
  now apply py_getitem_map.
Qed.

Lemma start_animation_paused a :
  Paused a ->
  start_animation a
  = (Ok true, set_timer_active true (set_animation_running true a)).
Proof.
  intros (Hp & Hrun).
  unfold start_animation, bind, get, modify, ret.
  rewrite (py_not_present a Hp). cbn [negb]. now rewrite Hrun.
Qed.

Lemma start_animation_running a :
  Running a -> start_animation a = (Ok false, a).
Proof.
  intros (Hp & Hrun).
  unfold start_animation, bind, get, modify, ret.
  rewrite (py_not_present a Hp). cbn [negb]. now rewrite Hrun.
Qed.

(** X5.  "Start" in the three states.  Without a sample and with valid
    parameters the sample is generated first and the animation then runs;
    with a sample and the flag clear only the flag and the timer change;
    with the flag already set nothing changes and [False] is returned. *)
Theorem start_animation_transitions `{!NumericLaws F} a :
  (Idle a -> animation_running a = false ->
   0 <= total_steps a -> valid_curve (curve a) ->
   exists a1,
     generate_points a = (Ok true, a1) /\
     start_animation a
     = (Ok true, set_timer_active true (set_animation_running true a1))) /\
  (Paused a ->
   start_animation a
   = (Ok true, set_timer_active true (set_animation_running true a))) /\
  (Running a -> start_animation a = (Ok false, a)).
Proof.
  split; [|split].
  - intros Hidle Hrun Hn Hv. unfold Idle in Hidle.
    destruct (generate_points_valid a Hn Hv)
      as (a1 & Hg & _ & _ & _ & _ & _ & _ & Hr1).
    exists a1. split; [exact Hg|].
    unfold start_animation, bind, get, modify, ret.
    rewrite Hidle. cbn [py_not]. rewrite Hg. cbn [negb].
    now rewrite Hr1, Hrun.
  - apply start_animation_paused.
  - apply start_animation_running.
Qed.

Lemma generate_points_r_zero a :
  0 <= total_steps a -> feq (self_r (curve a)) (of_Z 0) = true ->
  generate_points a = (Ok false, QMessageBox_critical ZeroDivisionError a).
Proof.
  intros Hn Hz.
  destruct (np_linspace_length (of_Z 0) (fmul (of_Z 2) np_pi)
              (total_steps a) Hn) as (ts & Hlin & _).
  destruct (generate_points_outcome a ts Hlin) as [[Hc _] | [_ Hg]];
    [|exact Hg].
  rewrite (calculate_cartesian_raise (curve a) ts ZeroDivisionError) in Hc;
    [discriminate|].
  unfold py_div. now rewrite Hz.
Qed.

(** X6.  When the curve's [r] compares equal to zero and there is no sample,
    neither [generate_points] nor [start_animation] raises: each shows
    one dialog with the [ZeroDivisionError], returns [False] and leaves
    everything else, the running flag included, as it was. *)
Theorem start_animation_failure a :
  Idle a -> 0 <= total_steps a ->
  feq (self_r (curve a)) (of_Z 0) = true ->
  generate_points a = (Ok false, QMessageBox_critical ZeroDivisionError a) /\
  start_animation a = (Ok false, QMessageBox_critical ZeroDivisionError a).
Proof.
  intros Hidle Hn Hz. unfold Idle in Hidle.
  pose proof (generate_points_r_zero a Hn Hz) as Hg.
  split; [exact Hg|].
  unfold start_animation, bind, get, modify, ret.
  rewrite Hidle. cbn [py_not]. now rewrite Hg.
Qed.

(** X7.  "Start" and then "stop" on a paused animator whose timer is stopped
    give back the animator exactly as it was, both reporting [True]. *)
Theorem start_then_stop_restores a :
  Paused a -> timer_active a = false ->
  (start_animation ;; stop_animation) a = (Ok true, a).
Proof.
  intros Hpaused Htimer. unfold bind at 1.
  rewrite (start_animation_paused a Hpaused).
  destruct Hpaused as (_ & Hrun).
  unfold stop_animation, bind, get, modify, ret. cbn.
  destruct a; cbn in *. now subst.
Qed.

(** X8.  After [stop_animation] the timer's slot is without effect: any number
    of firings returns with the animator unchanged. *)
Theorem ticks_after_stop (k : nat) a :
  ticks k (snd (stop_animation a))
  = (Ok tt, snd (stop_animation a)).
Proof.
  assert (Hstopped : animation_running (snd (stop_animation a)) = false).
  { unfold stop_animation, bind, get, modify, ret.
    destruct (animation_running a) eqn:Hrun; [reflexivity | exact Hrun]. }
  generalize dependent (snd (stop_animation a)). intros b Hb.
  induction k as [|k IH]; [reflexivity|].
  cbn [ticks]. unfold bind. now rewrite (update_frame_paused b Hb).
Qed.

(** X9.  A successful [generate_points] leaves a state on which
    [generate_points] changes nothing: the sample is a function of the
    curve and of the step count alone. *)
Theorem generate_points_idempotent a a1 :
  generate_points a = (Ok true, a1) ->
  generate_points a1 = (Ok true, a1).
Proof.
  intros Hg.
  destruct (np_linspace (of_Z 0) (fmul (of_Z 2) np_pi) (total_steps a))
    as [ts | e] eqn:Hlin.
  - destruct (generate_points_outcome a ts Hlin) as [[Hc Hg'] | [_ Hg']];
      [|rewrite Hg' in Hg; discriminate].
    assert (Ha1 : a1 = snd (generate_points a)) by now rewrite Hg.
    rewrite Hg' in Ha1. cbn [snd] in Ha1. clear Hg Hg'.
    assert (Hlin1 : np_linspace (of_Z 0) (fmul (of_Z 2) np_pi)
                      (total_steps a1) = Ok ts)
      by (rewrite Ha1; exact Hlin).
    assert (Hcurve : curve a1 = curve a) by now rewrite Ha1.
    destruct (generate_points_outcome a1 ts Hlin1) as [[_ Hg1] | [Hc1 _]].
    + rewrite Hg1, Hcurve. f_equal. rewrite Ha1. reflexivity.
    + rewrite Hcurve, Hc in Hc1. discriminate.
  - unfold generate_points, try_except, bind, get, lift, modify, ret in Hg.
    rewrite Hlin in Hg. discriminate.
Qed.

(** X10.  After a successful [generate_points] the stored polar arrays are the
    polar path that [draw_current_frame] recomputes from the stored
    points, entry for entry: the highlighted polar point lies on the
    plotted polar path. *)
Theorem generated_polar_on_path a a1 :
  generate_points a = (Ok true, a1) ->
  polar_path (points a1) = (polar_theta a1, polar_r a1) /\
  (forall i theta rho,
     py_getitem (polar_theta a1) i = Ok theta ->
     py_getitem (polar_r a1) i = Ok rho ->
     py_getitem (fst (polar_path (points a1))) i = Ok theta /\
     py_getitem (snd (polar_path (points a1))) i = Ok rho).
Proof.
  intros Hg.
  assert (Hpath : polar_path (points a1) = (polar_theta a1, polar_r a1)).
  { destruct (np_linspace (of_Z 0) (fmul (of_Z 2) np_pi) (total_steps a))
      as [ts | e] eqn:Hlin.
    - destruct (generate_points_outcome a ts Hlin) as [[_ Hg'] | [_ Hg']];
        rewrite Hg' in Hg; inversion Hg. reflexivity.
    - unfold generate_points, try_except, bind, get, lift, modify, ret in Hg.
      rewrite Hlin in Hg. discriminate. }
  split; [exact Hpath|].
  intros i theta rho Ht Hr. rewrite Hpath. cbn [fst snd]. now split.
Qed.

(** X11.  Seeking in a freshly generated sample.  After a successful
    [generate_points] over the domain [ts], [set_frame(step)] returns and
    draws exactly one frame, the one of index [j = step mod total_steps]:
    its point is the curve's point at the angle [ts[j]], its circle centre
    is [((R - r) cos ts[j], (R - r) sin ts[j])], and its polar pair is the
    angle and radius of that same point. *)
Theorem set_frame_after_generate a a1 (ts : ndarray) (step : Z) :
  1 <= total_steps a ->
  np_linspace (of_Z 0) (fmul (of_Z 2) np_pi) (total_steps a) = Ok ts ->
  generate_points a = (Ok true, a1) ->
  exists t,
    nth_error ts (Z.to_nat (step mod total_steps a)) = Some t /\
    set_frame step a1
    = (Ok tt,
       canvas_draw
         (mkFrame (spec_point (curve a) t)
            (fmul (fsub (self_R (curve a)) (self_r (curve a))) (np_cos t),
             fmul (fsub (self_R (curve a)) (self_r (curve a))) (np_sin t))
            (np_arctan2 (y (spec_point (curve a) t))
                        (x (spec_point (curve a) t)),
             np_sqrt (fadd (fpow (x (spec_point (curve a) t)) 2)
                           (fpow (y (spec_point (curve a) t)) 2))))
         (set_current_step (step mod total_steps a) a1)).
Proof.
  intros Hn Hlin Hg.
  assert (Hlen : length ts = Z.to_nat (total_steps a)).
  { destruct (np_linspace_length (of_Z 0) (fmul (of_Z 2) np_pi)
                (total_steps a)) as (ts' & Hts' & Hl); [lia|]. congruence. }
  set (m := step mod total_steps a).
  assert (Hm : 0 <= m < total_steps a) by (apply Z.mod_pos_bound; lia).
  destruct (nth_error ts (Z.to_nat m)) as [t|] eqn:Hnth;
    [|apply nth_error_None in Hnth; lia].
  exists t. split; [reflexivity|].
  destruct (generate_points_outcome a ts Hlin) as [[_ Hg'] | [_ Hg']];
    [|rewrite Hg' in Hg; discriminate].
  assert (Ha1 : a1 = snd (generate_points a)) by now rewrite Hg.
  rewrite Hg' in Ha1. cbn [snd] in Ha1. clear Hg Hg'.
  assert (Hts : total_steps a1 = total_steps a) by now rewrite Ha1.
  rewrite set_frame_unfold by (rewrite Hts; lia).
  rewrite Hts. fold m.
  assert (Hp : nth_error (map (spec_point (curve a)) ts) (Z.to_nat m)
               = Some (spec_point (curve a) t))
    by exact (map_nth_error (spec_point (curve a)) _ _ Hnth).
  assert (Hm0 : 0 <= m) by lia.
  unfold draw_current_frame, bind, get, lift, modify.
  cbn [points polar_r polar_theta rolling_circle_x rolling_circle_y
       current_step set_current_step].
  rewrite Ha1.
  cbn [points polar_r polar_theta rolling_circle_x rolling_circle_y
       set_rolling_circle set_polar set_points fst snd].
  rewrite py_not_false by (rewrite length_map; lia).
  replace (Z.of_nat (length (map (spec_point (curve a)) ts)) <=? m)
    with false by (symmetry; apply Z.leb_gt; rewrite length_map; lia).
  cbn [orb].
  rewrite (py_getitem_map_Z (spec_point (curve a)) ts m t Hm0 Hnth).
  rewrite (py_getitem_map_Z _ ts m t Hm0 Hnth).
  rewrite (py_getitem_map_Z _ ts m t Hm0 Hnth).
  rewrite (py_getitem_map_Z spec_angle _ m _ Hm0 Hp).
  rewrite (py_getitem_map_Z spec_radius _ m _ Hm0 Hp).
  reflexivity.
Qed.

(** One firing while running leaves the slider at the new step. *)
Lemma update_frame_slider a :
  Running a -> well_formed a ->
  value (slider (snd (update_frame a))) = current_step (snd (update_frame a)).
Proof.
  intros (Hp & Hrun) (Hn & (Hmin & Hmax) & Hcomplete).
  pose proof (Hcomplete Hp) as Hc.
  set (n := total_steps a) in *.
  set (m := (current_step a + 1) mod n).
  assert (Hm : 0 <= m < n) by (apply Z.mod_pos_bound; lia).
  assert (Hnz : (n =? 0) = false) by (apply Z.eqb_neq; lia).
  assert (Hdraw : forall b : @Animator F,
            total_steps b = n -> current_step b = m ->
            sample_complete b ->
            exists f, draw_current_frame b = (Ok tt, canvas_draw f b)).
  { intros b Hbn Hbm Hbc. apply draw_current_frame_complete; [exact Hbc|].
    unfold frame_in_range. rewrite Hbn, Hbm. exact Hm. }
  unfold update_frame, bind, get, lift, modify, py_mod.
  rewrite Hrun. cbn [negb]. fold n. rewrite Hnz. fold m.
  unfold slider_setValue, bind, get, modify, ret.
  cbn [slider current_step set_current_step].
  replace (Z.max (minimum (slider a)) (Z.min (maximum (slider a)) m))
    with m by lia.
  destruct (Z.eqb_spec m (value (slider a))) as [Heq | Hne].
  - destruct (Hdraw (set_current_step m a) eq_refl eq_refl Hc) as [f Hf].
    rewrite Hf. cbn. now symmetry.
  - rewrite set_frame_unfold by (cbn; fold n; lia).
    cbn [total_steps set_slider_value set_current_step]. fold n.
    rewrite (Z.mod_small m n Hm).
    destruct (Hdraw (set_current_step m (set_slider_value m
                       (set_current_step m a))) eq_refl eq_refl Hc)
      as [f Hf].
    rewrite Hf.
    destruct (Hdraw (canvas_draw f (set_current_step m
                       (set_slider_value m (set_current_step m a))))
                eq_refl eq_refl Hc) as [f' Hf'].
    rewrite Hf'. reflexivity.
Qed.

(** X12.  Playback from any step.  In a running, well-formed animator whose
    step is in range, [k] firings of the timer all return, leave the
    step at [(current_step + k) mod total_steps], keep the animator
    running, and (for [k >= 1]) leave the slider showing that step. *)
Theorem ticks_advance_with_slider (k : nat) a :
  Running a -> well_formed a -> frame_in_range a ->
  exists a',
    ticks k a = (Ok tt, a') /\
    current_step a' = (current_step a + Z.of_nat k) mod total_steps a /\
    ((0 < k)%nat -> value (slider a') = current_step a') /\
    Running a' /\ well_formed a'.
Proof.
  revert a. induction k as [|k IH]; intros a Hrun Hwf Hin.
  - exists a. cbn [ticks]. unfold ret. split; [reflexivity|].
    unfold frame_in_range in Hin.
    rewrite Z.add_0_r, Z.mod_small by lia.
    split; [reflexivity|]. split; [lia|]. now split.
  - destruct (update_frame_running a Hrun Hwf) as (a1 & Hu & Hcs1 & Hs1).
    pose proof (update_frame_slider a Hrun Hwf) as Hsl1.
    rewrite Hu in Hsl1. cbn [snd] in Hsl1.
    assert (Hn1 : total_steps a1 = total_steps a) by apply Hs1.
    assert (Hpos : 1 <= total_steps a) by apply Hwf.
    assert (Hin1 : frame_in_range a1).
    { unfold frame_in_range. rewrite Hcs1, Hn1.
      apply Z.mod_pos_bound. lia. }
    destruct (IH a1 (Running_steps_only a a1 Hs1 Hrun)
                 (well_formed_steps_only a a1 Hs1 Hwf) Hin1)
      as (a' & Ht & Hcs & Hsl & Hrun' & Hwf').
    exists a'. cbn [ticks]. unfold bind. rewrite Hu, Ht.
    split; [reflexivity|].
    split.
    { rewrite Hcs, Hcs1, Hn1. rewrite Zplus_mod_idemp_l. f_equal. lia. }
    split; [|now split].
    intros _. destruct k as [|k'].
    + cbn [ticks] in Ht. unfold ret in Ht.
      assert (Ha' : a' = a1) by congruence. now rewrite Ha'.
    + apply Hsl. lia.
Qed.

(** X13.  [set_frame] and [update_frame] change at most the current step, the
    slider's value and the frames drawn, whether they return or raise:
    they never touch the sample, the curve, the step count, the running
    flag, the timer or the dialogs. *)
Theorem seek_and_tick_frame (step : Z) a :
  steps_only a (snd (set_frame step a)) /\
  steps_only a (snd (update_frame a)).
Proof.
  split; [apply set_frame_steps | apply update_frame_steps].
Qed.

End AnimatorComposition.

(* ================================================================== *)
(** ** MainWindow: the animation button *)

Section WindowProperties.

Context {F : Type} `{NumF : Numeric F}.

Variable spin_bound : F -> F.

Implicit Type a : @Animator F.
Implicit Type w : @MainWindow F.

Lemma on_animator_same_canvas {A} (m : Py (@Animator F) A) w r a' :
  m (animator w) = (r, a') -> canvas a' = canvas (animator w) ->
  on_animator m w = (r, set_animator a' w).
Proof.
  intros Hm Hc. unfold on_animator. rewrite Hm, Hc, Nat.eqb_refl.
  rewrite andb_true_r. now destruct w.
Qed.

Lemma on_animator_stop w :
  on_animator stop_animation w
  = (Ok (animation_running (animator w)),
     set_animator (snd (stop_animation (animator w))) w).
Proof.
  apply on_animator_same_canvas;
    unfold stop_animation, bind, get, modify, ret;
    now destruct (animation_running (animator w)) eqn:Hrun.
Qed.

Lemma on_animator_start_present w :
  sample_present (animator w) -> animation_running (animator w) = false ->
  on_animator start_animation w
  = (Ok true,
     set_animator (set_timer_active true
                     (set_animation_running true (animator w))) w).
Proof.
  intros Hp Hrun. apply on_animator_same_canvas; [|reflexivity].
  apply start_animation_paused. now split.
Qed.

(** The button on a window that has a sample. *)
Lemma toggle_animation_present w :
  sample_present (animator w) ->
  toggle_animation w
  = (Ok tt,
     if animation_running (animator w)
     then setText StartText
            (set_animator (set_timer_active false
                             (set_animation_running false (animator w))) w)
     else setText StopText
            (set_animator (set_timer_active true
                             (set_animation_running true (animator w))) w)).
Proof.
  intros Hp. unfold toggle_animation, bind, get, ret.
  rewrite (py_not_present _ Hp). cbn [negb].
  destruct (animation_running (animator w)) eqn:Hrun.
  - rewrite on_animator_stop, Hrun.
    unfold stop_animation, bind, get, modify, ret. now rewrite Hrun.
  - now rewrite (on_animator_start_present w Hp Hrun).
Qed.

(** X16.  Pressing the animation button on a window that has a sample flips
    the running flag, starts or stops the timer with it and sets the
    label to match, leaving the step, the sample and the curve alone;
    pressing it twice gives back the window exactly as it was. *)
Theorem toggle_animation_flips w :
  sample_present (animator w) -> button_consistent w ->
  (exists w',
     toggle_animation w = (Ok tt, w') /\
     animation_running (animator w')
     = negb (animation_running (animator w)) /\
     button_consistent w' /\
     current_step (animator w') = current_step (animator w) /\
     points (animator w') = points (animator w) /\
     curve (animator w') = curve (animator w)) /\
  (toggle_animation ;; toggle_animation) w = (Ok tt, w).
Proof.
  intros Hp (Hbutton & Htimer).
  pose proof (toggle_animation_present w Hp) as Ht.
  split.
  - eexists. split; [exact Ht|].
    destruct (animation_running (animator w)); cbn;
      (split; [reflexivity|]); (split; [|now repeat split]);
      (split; [|reflexivity]);
      split; intros Hx; first [discriminate | reflexivity].
  - unfold bind. rewrite Ht.
    destruct (animation_running (animator w)) eqn:Hrun.
    + rewrite toggle_animation_present by exact Hp. cbn.
      assert (Hb : animation_button w = StopText) by now apply Hbutton.
      destruct w as [a ? ? ? ? ? ?]. destruct a. cbn in *. now subst.
    + rewrite toggle_animation_present by exact Hp. cbn.
      assert (Hb : animation_button w = StartText).
      { destruct (animation_button w) eqn:Hbt; [reflexivity|].
        assert (Hcontra : false = true) by now apply Hbutton.
        discriminate. }
      destruct w as [a ? ? ? ? ? ?]. destruct a. cbn in *. now subst.
Qed.

(** X17.  Pressing the button on a window without a sample.  With valid
    parameters the sample is generated, the animation runs and the label
    says "stop"; when the curve's [r] compares equal to zero the press
    returns with one dialog shown and nothing else changed (no sample,
    not running, label as before). *)
Theorem toggle_animation_idle `{!NumericLaws F} w :
  Idle (animator w) -> animation_running (animator w) = false ->
  1 <= total_steps (animator w) ->
  (valid_curve (curve (animator w)) ->
   exists a1,
     generate_points (animator w) = (Ok true, a1) /\
     toggle_animation w
     = (Ok tt,
        setText StopText
          (set_animator (set_timer_active true
                           (set_animation_running true a1)) w))) /\
  (feq (self_r (curve (animator w))) (of_Z 0) = true ->
   toggle_animation w
   = (Ok tt,
      set_animator (QMessageBox_critical ZeroDivisionError (animator w)) w)).
Proof.
  intros Hidle Hrun Hn. split.
  - intros Hv.
    destruct (generate_points_valid (animator w)) as
      (a1 & Hg & Hc & _ & _ & _ & Hts & _ & Hr1); [lia | exact Hv|].
    exists a1. split; [exact Hg|].
    assert (Hcanvas : canvas a1 = canvas (animator w)).
    { destruct (generate_points_shape (animator w))
        as (b & ps & rt & xy & dl & Hshape).
      rewrite Hshape in Hg. inversion Hg. reflexivity. }
    assert (Hp1 : sample_present a1).
    { apply sample_complete_present; [rewrite Hts; exact Hn | exact Hc]. }
    unfold toggle_animation, bind, get, ret. unfold Idle in Hidle.
    rewrite Hidle. cbn [py_not].
    rewrite (on_animator_same_canvas generate_points w (Ok true) a1 Hg
               Hcanvas).
    cbn [negb animator set_animator]. rewrite Hr1, Hrun.
    rewrite (on_animator_start_present (set_animator a1 w) Hp1)
      by (cbn [animator set_animator]; now rewrite Hr1).
    unfold modify. now destruct w.
  - intros Hz.
    assert (Hg : generate_points (animator w)
                 = (Ok false,
                    QMessageBox_critical ZeroDivisionError (animator w)))
      by (apply generate_points_r_zero; [lia | exact Hz]).
    unfold toggle_animation, bind, get, ret. unfold Idle in Hidle.
    rewrite Hidle. cbn [py_not].
    rewrite (on_animator_same_canvas generate_points w (Ok false) _ Hg
               eq_refl).
    reflexivity.
Qed.

(* ================================================================== *)
(** ** MainWindow: clearing, and the slider *)

(** Setting the slider of a well-formed animator to a step index. *)
Lemma slider_setValue_step (v : Z) a :
  well_formed a -> 0 <= v < total_steps a ->
  exists a',
    slider_setValue v a = (Ok tt, a') /\
    steps_only a a' /\
    value (slider a') = v /\
    (v = value (slider a) -> a' = a) /\
    (v <> value (slider a) ->
     current_step a' = v /\
     (Idle a -> canvas a' = canvas a) /\
     (sample_present a -> exists f, canvas a' = f :: canvas a)).
Proof.
  intros (Hn & (Hmin & Hmax) & Hcomplete) Hv.
  unfold slider_setValue, bind, get, modify, ret.
  replace (Z.max (minimum (slider a)) (Z.min (maximum (slider a)) v))
    with v by lia.
  destruct (Z.eqb_spec v (value (slider a))) as [Heq | Hne].
  - exists a. split; [reflexivity|]. split; [apply steps_only_refl|].
    split; [now symmetry|]. split; [reflexivity|]. contradiction.
  - rewrite set_frame_unfold by (cbn; lia).
    cbn [total_steps set_slider_value]. rewrite (Z.mod_small v _ Hv).
    set (b := set_current_step v (set_slider_value v a)).
    assert (Hsteps : steps_only a b).
    { eapply steps_only_trans; [apply steps_only_set_slider_value|].
      apply steps_only_set_current_step. }
    destruct (points a) as [|p ps] eqn:Hpts.
    + rewrite (draw_current_frame_idle b Hpts).
      exists b. split; [reflexivity|]. split; [exact Hsteps|].
      split; [reflexivity|]. split; [contradiction|]. intros _.
      split; [reflexivity|]. split; [reflexivity|].
      intros Hp. now contradiction Hp.
    + assert (Hp : sample_present a)
        by (unfold sample_present; rewrite Hpts; discriminate).
      destruct (draw_current_frame_complete b (Hcomplete Hp) Hv)
        as [f Hf].
      rewrite Hf. exists (canvas_draw f b). split; [reflexivity|].
      split; [exact Hsteps|]. split; [reflexivity|].
      split; [contradiction|]. intros _. split; [reflexivity|].
      split; [intros Hidle; unfold Idle in Hidle; congruence|].
      intros _. now exists f.
Qed.

Lemma clear_plots_result w :
  well_formed (animator w) ->
  exists a',
    slider_setValue 0
      (set_current_step 0 (snd (stop_animation (animator w))))
    = (Ok tt, a') /\
    clear_plots w
    = (Ok tt,
       set_figures_blank true
         (set_animator a'
            (if animation_running (animator w)
             then setText StartText w else w))).
Proof.
  intros Hwf.
  set (a0 := set_current_step 0 (snd (stop_animation (animator w)))).
  assert (Hwf0 : well_formed a0).
  { apply (well_formed_steps_only (snd (stop_animation (animator w))));
      [apply steps_only_set_current_step|].
    now apply stop_animation_well_formed. }
  assert (Hn0 : 0 <= 0 < total_steps a0) by (destruct Hwf0; lia).
  destruct (slider_setValue_step 0 a0 Hwf0 Hn0) as (a' & Hs & _).
  exists a'. split; [exact Hs|].
  unfold clear_plots, bind at 1 2 3, get.
  assert (Hstop : forall w0 : @MainWindow F,
            (if animation_running (animator w0)
             then _ <- on_animator stop_animation ;;
                  modify (setText StartText)
             else ret tt) w0
            = (Ok tt,
               set_animator (snd (stop_animation (animator w0)))
                 (if animation_running (animator w0)
                  then setText StartText w0 else w0))).
  { intros w0. destruct (animation_running (animator w0)) eqn:Hrun.
    - unfold bind. rewrite on_animator_stop. unfold modify.
      now destruct w0.
    - unfold ret, stop_animation, bind, get. rewrite Hrun.
      now destruct w0. }
  rewrite Hstop.
  unfold bind, modify, on_animator.
  cbn [animator set_animator set_figures_blank canvas set_current_step].
  assert (Hanim : animator (if animation_running (animator w)
                            then setText StartText w else w)
                  = animator w)
    by now destruct (animation_running (animator w)).
  fold a0. rewrite Hs.
  destruct (animation_running (animator w)); destruct w; reflexivity.
Qed.

(** X18.  "Clear" on a well-formed window returns, with the animation stopped,
    the label saying "start" if it was running, the step and the slider
    at 0 and both figures blank; the sample, the curve and the step
    count are the ones from before. *)
Theorem clear_plots_effect w :
  well_formed (animator w) -> button_consistent w ->
  exists w',
    clear_plots w = (Ok tt, w') /\
    animation_running (animator w') = false /\
    button_consistent w' /\
    animation_button w' = StartText /\
    current_step (animator w') = 0 /\
    value (slider (animator w')) = 0 /\
    figures_blank w' = true /\
    points (animator w') = points (animator w) /\
    polar_r (animator w') = polar_r (animator w) /\
    polar_theta (animator w') = polar_theta (animator w) /\
    rolling_circle_x (animator w') = rolling_circle_x (animator w) /\
    rolling_circle_y (animator w') = rolling_circle_y (animator w) /\
    curve (animator w') = curve (animator w) /\
    total_steps (animator w') = total_steps (animator w).
Proof.
  intros Hwf (Hbutton & Htimer).
  destruct (clear_plots_result w Hwf) as (a' & Hs & Hclear).
  set (a0 := set_current_step 0 (snd (stop_animation (animator w)))) in Hs.
  assert (Hwf0 : well_formed a0).
  { apply (well_formed_steps_only (snd (stop_animation (animator w))));
      [apply steps_only_set_current_step|].
    now apply stop_animation_well_formed. }
  assert (Hn0 : 0 <= 0 < total_steps a0) by (destruct Hwf0; lia).
  destruct (slider_setValue_step 0 a0 Hwf0 Hn0)
    as (a'' & Hs' & Hsteps & Hval & Hsame & Hmoved).
  assert (Ha : a'' = a') by congruence. subst a''.
  assert (Hcs : current_step a' = 0).
  { destruct (Z.eq_dec 0 (value (slider a0))) as [Heq | Hne].
    - now rewrite (Hsame Heq).
    - now apply Hmoved. }
  pose proof (stop_animation_frame (animator w)) as Hstop.
  cbv zeta in Hstop.
  destruct Hstop as (_ & Hp & Hpr & Hpt & Hx & Hy & Hc & Hts & _ & _ & _
                     & Hr & _ & _).
  destruct Hsteps as (Hc' & _ & _ & Hts' & Htm' & Hr' & Hp' & Hpr' & Hpt'
                      & Hx' & Hy' & _).
  assert (Htimer0 : timer_active a0 = false).
  { unfold a0, stop_animation, bind, get, modify, ret.
    destruct (animation_running (animator w)) eqn:Hrun; cbn;
      [reflexivity | congruence]. }
  exists (set_figures_blank true
            (set_animator a'
               (if animation_running (animator w)
                then setText StartText w else w))).
  split; [exact Hclear|]. cbn [animator set_figures_blank set_animator
    animation_button figures_blank].
  assert (Hbt : animation_button
                  (if animation_running (animator w)
                   then setText StartText w else w) = StartText).
  { destruct (animation_running (animator w)) eqn:Hrun; [reflexivity|].
    destruct (animation_button w) eqn:Hb; [reflexivity|].
    assert (Hcontra : false = true) by now apply Hbutton. discriminate. }
  assert (Hrun' : animation_running a' = false)
    by (rewrite Hr'; exact Hr).
  split; [exact Hrun'|].
  split.
  { split; cbn [animator set_figures_blank set_animator animation_button].
    - rewrite Hbt, Hrun'. split; discriminate.
    - rewrite Htm', Hrun'. exact Htimer0. }
  split; [exact Hbt|]. split; [exact Hcs|]. split; [exact Hval|].
  split; [reflexivity|].
  unfold a0 in Hc', Hts', Hp', Hpr', Hpt', Hx', Hy'.
  cbn [curve total_steps points polar_r polar_theta rolling_circle_x
       rolling_circle_y set_current_step]
    in Hc', Hts', Hp', Hpr', Hpt', Hx', Hy'.
  repeat split; congruence.
Qed.

(** X19.  "Clear" does not discard the sample: when, after it, the user moves
    the slider to a step other than 0, that frame is drawn again and the
    figures are no longer blank. *)
Theorem slider_redraws_after_clear w (v : Z) :
  well_formed (animator w) -> sample_present (animator w) ->
  0 < v < total_steps (animator w) ->
  exists w1 w2 f,
    clear_plots w = (Ok tt, w1) /\ figures_blank w1 = true /\
    slider_moved v w1 = (Ok tt, w2) /\ figures_blank w2 = false /\
    current_step (animator w2) = v /\
    canvas (animator w2) = f :: canvas (animator w1).
Proof.
  intros Hwf Hp Hv.
  destruct (clear_plots_result w Hwf) as (a' & Hs & Hclear).
  set (a0 := set_current_step 0 (snd (stop_animation (animator w)))) in Hs.
  pose proof (stop_animation_frame (animator w)) as Hstop.
  cbv zeta in Hstop.
  destruct Hstop as (_ & Hpts & _ & _ & _ & _ & _ & Hts & _).
  assert (Hwf0 : well_formed a0).
  { apply (well_formed_steps_only (snd (stop_animation (animator w))));
      [apply steps_only_set_current_step|].
    now apply stop_animation_well_formed. }
  assert (Hn0 : 0 <= 0 < total_steps a0) by (destruct Hwf0; lia).
  destruct (slider_setValue_step 0 a0 Hwf0 Hn0)
    as (a'' & Hs' & Hsteps & Hval & _).
  assert (Ha : a'' = a') by congruence. subst a''.
  assert (Hwf' : well_formed a')
    by exact (well_formed_steps_only a0 a' Hsteps Hwf0).
  destruct Hsteps as (_ & _ & _ & Hts' & _ & _ & Hpts' & _).
  assert (Htotal : total_steps a' = total_steps (animator w))
    by (rewrite Hts'; exact Hts).
  assert (Hp' : sample_present a').
  { unfold sample_present. rewrite Hpts'. unfold a0.
    cbn [points set_current_step]. rewrite Hpts. exact Hp. }
  assert (Hv' : 0 <= v < total_steps a') by (rewrite Htotal; lia).
  destruct (slider_setValue_step v a' Hwf' Hv')
    as (a2 & Hs2 & _ & _ & _ & Hmoved).
  destruct Hmoved as (Hcs2 & _ & Hdrawn); [rewrite Hval; lia|].
  destruct (Hdrawn Hp') as [f Hf].
  eexists. eexists. exists f.
  split; [exact Hclear|]. split; [reflexivity|].
  unfold slider_moved, on_animator.
  cbn [animator set_figures_blank set_animator figures_blank].
  rewrite Hs2, Hf. cbn [length].
  replace (S (length (canvas a')) =? length (canvas a'))%nat with false
    by (symmetry; apply Nat.eqb_neq; lia).
  split; [reflexivity|]. cbn. split; [reflexivity|].
  split; [exact Hcs2 | exact Hf].
Qed.

(* ================================================================== *)
(** ** MainWindow: the spin boxes *)

Lemma apply_parameters_accepts (R r d : F) w :
  invalid_parameters R r d = false ->
  apply_parameters R r d w = (Ok tt, parameters_applied R r d w).
Proof.
  intros Hv. unfold apply_parameters, bind, get, on_curve.
  rewrite (set_parameters_accepts R r d _ Hv).
  cbn [animator set_animator animation_running set_curve].
  unfold parameters_applied.
  destruct (animation_running (animator w)) eqn:Hrun.
  - rewrite on_animator_stop. cbn [animator set_animator].
    unfold stop_animation, bind, get, modify, ret.
    cbn [animation_running set_curve]. rewrite Hrun. cbn.
    now destruct w.
  - reflexivity.
Qed.

(** X20.  A change of a spin box whose three values the curve accepts.  The
    call returns for every positive fuel: the curve holds the three
    values, a running animation is stopped and the label then says
    "start"; the step, the stored sample (which is not regenerated), the
    spin boxes and the warnings are as before. *)
Theorem update_parameters_accepts (fuel : nat) w :
  invalid_parameters (R_spin w) (r_spin w) (d_spin w) = false ->
  exists w',
    update_parameters spin_bound (S fuel) w = Some (Ok tt, w') /\
    curve (animator w')
    = mkSteinerCurve (R_spin w) (r_spin w) (d_spin w) /\
    animation_running (animator w') = false /\
    (animation_running (animator w) = true ->
     animation_button w' = StartText) /\
    (animation_running (animator w) = false ->
     animation_button w' = animation_button w) /\
    current_step (animator w') = current_step (animator w) /\
    points (animator w') = points (animator w) /\
    polar_r (animator w') = polar_r (animator w) /\
    polar_theta (animator w') = polar_theta (animator w) /\
    rolling_circle_x (animator w') = rolling_circle_x (animator w) /\
    rolling_circle_y (animator w') = rolling_circle_y (animator w) /\
    (R_spin w', r_spin w', d_spin w') = (R_spin w, r_spin w, d_spin w) /\
    warnings w' = warnings w.
Proof.
  intros Hv.
  pose proof (invalid_parameters_false _ _ _ Hv) as (_ & _ & _ & Hgt).
  exists (parameters_applied (R_spin w) (r_spin w) (d_spin w) w).
  split.
  - cbn [update_parameters]. rewrite Hgt. unfold try_except.
    now rewrite (apply_parameters_accepts _ _ _ w Hv).
  - unfold parameters_applied.
    destruct (animation_running (animator w)) eqn:Hrun; cbn;
      repeat split; auto; discriminate.
Qed.

(** X22.  A change that leaves [d > r], with [R] and [r] positive and [r] a
    value the [d] box stores as it is.  With fuel for one re-entry the
    call returns: one warning is shown, the [d] box is set to [r], and
    the re-entered slot applies [(R, r, r)] to the curve and stops a
    running animation.  With fuel for none it does not return. *)
Theorem update_parameters_coerces `{!CompareLaws F} (fuel : nat) w :
  fgt (d_spin w) (r_spin w) = true ->
  fle (R_spin w) (of_Z 0) = false -> fle (r_spin w) (of_Z 0) = false ->
  spin_bound (r_spin w) = r_spin w ->
  update_parameters spin_bound 1 w = None /\
  exists w',
    update_parameters spin_bound (S (S fuel)) w = Some (Ok tt, w') /\
    d_spin w' = r_spin w /\
    (R_spin w', r_spin w') = (R_spin w, r_spin w) /\
    curve (animator w')
    = mkSteinerCurve (R_spin w) (r_spin w) (r_spin w) /\
    animation_running (animator w') = false /\
    warnings w' = Warning_d_exceeds_r :: warnings w /\
    points (animator w') = points (animator w) /\
    current_step (animator w') = current_step (animator w).
Proof.
  intros Hgt HR Hr Hbound.
  assert (Hne : feq (r_spin w) (d_spin w) = false)
    by exact (fgt_not_feq _ _ Hgt).
  set (w1 := set_d_spin (r_spin w)
               (QMessageBox_warning Warning_d_exceeds_r w)).
  assert (Hvalid : invalid_parameters (R_spin w1) (r_spin w1) (d_spin w1)
                   = false).
  { unfold invalid_parameters. cbn. now rewrite HR, Hr, fgt_irrefl. }
  assert (Hstep : forall n,
            update_parameters spin_bound (S n) w
            = match update_parameters spin_bound n w1 with
              | None => None
              | Some (Ok _, self2) => Some (Ok tt, self2)
              | Some (Raise e, self2) => Some (except_ValueError e self2)
              end).
  { intros n. cbn [update_parameters]. rewrite Hgt.
    unfold py_min. rewrite Hgt, Hbound.
    cbn [d_spin QMessageBox_warning]. now rewrite Hne. }
  split; [now rewrite Hstep|].
  exists (parameters_applied (R_spin w) (r_spin w) (r_spin w) w1).
  split.
  - rewrite Hstep. cbn [update_parameters].
    replace (fgt (d_spin w1) (r_spin w1)) with false
      by (symmetry; apply fgt_irrefl).
    unfold try_except.
    now rewrite (apply_parameters_accepts _ _ _ w1 Hvalid).
  - unfold parameters_applied.
    destruct (animation_running (animator w1)) eqn:Hrun; cbn;
      repeat split; auto.
Qed.

(* ================================================================== *)
(** ** MainWindow: plotting *)

Lemma on_animator_result {A} (m : Py (@Animator F) A) w r a' :
  m (animator w) = (r, a') ->
  on_animator m w
  = (r, set_figures_blank
          (figures_blank w
           && (length (canvas a') =? length (canvas (animator w)))%nat)
          (set_animator a' w)).
Proof. intros Hm. unfold on_animator. now rewrite Hm. Qed.

(** X23.  "Plot" with spin values the curve accepts, on a well-formed window.
    The call returns for every positive fuel.  Afterwards the curve
    holds the three values; the sample is the one of that curve over the
    domain [np.linspace(0, 2 pi, total_steps)]; the animation is not
    running; the step and the slider are at 0; and a frame has been
    drawn, so the figures are not blank. *)
Theorem plot_curve_effect `{!NumericLaws F} (fuel : nat) w :
  well_formed (animator w) ->
  invalid_parameters (R_spin w) (r_spin w) (d_spin w) = false ->
  exists w' ts f,
    plot_curve spin_bound (S fuel) w = Some (Ok tt, w') /\
    curve (animator w')
    = mkSteinerCurve (R_spin w) (r_spin w) (d_spin w) /\
    np_linspace (of_Z 0) (fmul (of_Z 2) np_pi) (total_steps (animator w))
    = Ok ts /\
    points (animator w') = map (spec_point (curve (animator w'))) ts /\
    polar_r (animator w') = map spec_radius (points (animator w')) /\
    polar_theta (animator w') = map spec_angle (points (animator w')) /\
    animation_running (animator w') = false /\
    current_step (animator w') = 0 /\
    value (slider (animator w')) = 0 /\
    figures_blank w' = false /\
    (exists rest, canvas (animator w') = f :: rest).
Proof.
  intros Hwf Hv.
  pose proof (invalid_parameters_false _ _ _ Hv) as (_ & _ & _ & Hgt).
  set (c := mkSteinerCurve (R_spin w) (r_spin w) (d_spin w)).
  set (w1 := parameters_applied (R_spin w) (r_spin w) (d_spin w) w).
  assert (Hup : update_parameters spin_bound (S fuel) w = Some (Ok tt, w1)).
  { cbn [update_parameters]. rewrite Hgt. unfold try_except.
    now rewrite (apply_parameters_accepts _ _ _ w Hv). }
  assert (Hw1 : curve (animator w1) = c /\
                animation_running (animator w1) = false /\
                total_steps (animator w1) = total_steps (animator w) /\
                well_formed (animator w1)).
  { unfold w1, parameters_applied.
    destruct (animation_running (animator w)) eqn:Hrun;
      (split; [reflexivity|]); (split; [first [reflexivity | exact Hrun]|]);
      (split; [reflexivity | exact Hwf]). }
  destruct Hw1 as (Hc1 & Hr1 & Hts1 & Hwf1).
  assert (Hn : 1 <= total_steps (animator w)) by apply Hwf.
  destruct (np_linspace_length (of_Z 0) (fmul (of_Z 2) np_pi)
              (total_steps (animator w))) as (ts & Hlin & _); [lia|].
  assert (Hlin1 : np_linspace (of_Z 0) (fmul (of_Z 2) np_pi)
                    (total_steps (animator w1)) = Ok ts)
    by (rewrite Hts1; exact Hlin).
  assert (Hvalid1 : valid_curve (curve (animator w1)))
    by (rewrite Hc1; exact Hv).
  destruct (generate_points_outcome (animator w1) ts Hlin1)
    as [[_ Hg] | [Hraise _]];
    [|rewrite (calculate_cartesian_quotient _ ts
                 (valid_curve_py_div _ Hvalid1)) in Hraise; discriminate].
  rewrite Hc1 in Hg.
  match type of Hg with _ = (_, ?a) => set (a2 := a) in Hg end.
  set (a3 := set_current_step 0 a2).
  assert (Hwf2 : well_formed a2).
  { pose proof (generate_points_well_formed (animator w1) Hwf1) as H2.
    now rewrite Hg in H2. }
  assert (Hwf3 : well_formed a3)
    by exact (well_formed_steps_only a2 a3
                (steps_only_set_current_step 0 a2) Hwf2).
  assert (Hn3 : 0 <= 0 < total_steps a3) by (cbn; lia).
  destruct (slider_setValue_step 0 a3 Hwf3 Hn3)
    as (a4 & Hs & Hsteps & Hval & Hsame & Hmoved).
  assert (Hcs4 : current_step a4 = 0).
  { destruct (Z.eq_dec 0 (value (slider a3))) as [Heq | Hne].
    - now rewrite (Hsame Heq).
    - now apply Hmoved. }
  assert (Hwf4 : well_formed a4)
    by exact (well_formed_steps_only a3 a4 Hsteps Hwf3).
  assert (Hp4 : sample_present a4).
  { apply sample_complete_present; [apply Hwf4|].
    destruct Hwf4 as (Hn4 & _ & Hc4). apply Hc4.
    destruct Hsteps as (_ & _ & _ & _ & _ & _ & Hpts & _).
    unfold sample_present. rewrite Hpts.
    apply (sample_complete_present a3); [apply Hwf3|].
    exact (generate_points_complete (animator w1) a2 Hg). }
  assert (Hin4 : frame_in_range a4).
  { unfold frame_in_range. rewrite Hcs4. destruct Hwf4. lia. }
  destruct (draw_current_frame_complete a4
              (proj2 (proj2 Hwf4) Hp4) Hin4) as [f Hf].
  exists (set_figures_blank false
            (set_animator (canvas_draw f a4) w1)), ts, f.
  split.
  { unfold plot_curve. rewrite Hup. f_equal.
    unfold plot_generated, bind.
    rewrite (on_animator_same_canvas generate_points w1 (Ok true) a2
               Hg eq_refl).
    rewrite (on_animator_same_canvas (modify (set_current_step 0))
               (set_animator a2 w1) (Ok tt) a3 eq_refl eq_refl).
    rewrite (on_animator_result (slider_setValue 0)
               (set_animator a3 (set_animator a2 w1)) (Ok tt) a4 Hs).
    match goal with
    | |- context [on_animator draw_current_frame ?w0] =>
        rewrite (on_animator_result draw_current_frame w0 (Ok tt)
                   (canvas_draw f a4) Hf)
    end.
    cbn [animator set_animator set_figures_blank figures_blank canvas
         canvas_draw length].
    replace (S (length (canvas a4)) =? length (canvas a4))%nat with false
      by (symmetry; apply Nat.eqb_neq; lia).
    rewrite andb_false_r. now destruct w1. }
  cbn [animator set_animator set_figures_blank figures_blank canvas_draw
       curve points polar_r polar_theta animation_running current_step
       slider canvas].
  destruct Hsteps as (Hc4 & _ & _ & _ & _ & Hr4 & Hpts4 & Hpr4 & Hpt4 & _).
  split; [rewrite Hc4; exact Hc1|].
  split; [exact Hlin|].
  split; [rewrite Hpts4, Hc4; cbn; now rewrite Hc1|].
  split; [rewrite Hpr4, Hpts4; reflexivity|].
  split; [rewrite Hpt4, Hpts4; reflexivity|].
  split; [rewrite Hr4; exact Hr1|].
  split; [exact Hcs4|]. split; [exact Hval|]. split; [reflexivity|].
  now exists (canvas a4).
Qed.

(* ================================================================== *)
(** ** MainWindow: the label tells the truth *)

Lemma flags_same_steps_only a a' : steps_only a a' -> flags_same a a'.
Proof.
  intros (_ & _ & _ & _ & Htm & Hr & _). now split.
Qed.

Lemma button_consistent_flags w w' :
  flags_same (animator w) (animator w') ->
  animation_button w' = animation_button w ->
  button_consistent w -> button_consistent w'.
Proof.
  intros (Hr & Htm) Hb (Hbutton & Htimer). unfold button_consistent.
  rewrite Hr, Htm, Hb. now split.
Qed.

Lemma on_animator_consistent {A} (m : Py (@Animator F) A) w :
  flags_same (animator w) (snd (m (animator w))) ->
  button_consistent w -> button_consistent (snd (on_animator m w)).
Proof.
  intros Hf Hb. unfold on_animator.
  destruct (m (animator w)) as [r a'] eqn:Hm. cbn [snd] in *.
  now apply (button_consistent_flags w).
Qed.

Lemma generate_points_flags a : flags_same a (snd (generate_points a)).
Proof.
  destruct (generate_points_shape a) as (b & ps & rt & xy & dl & Hg).
  rewrite Hg. now split.
Qed.

Lemma generate_points_returns a :
  exists b a', generate_points a = (Ok b, a').
Proof.
  destruct (generate_points_shape a) as (b & ps & rt & xy & dl & Hg).
  rewrite Hg. now eexists _, _.
Qed.

(** [start_animation] never raises; when it reports [True] the flag and
    the timer are set, and when it reports [False] both are as before. *)
Lemma start_animation_flags a :
  exists b a',
    start_animation a = (Ok b, a') /\
    (b = true ->
     animation_running a' = true /\ timer_active a' = true) /\
    (b = false -> flags_same a a').
Proof.
  unfold start_animation, bind, get, modify, ret.
  destruct (py_not (points a)).
  - destruct (generate_points_shape a) as (b & ps & rt & xy & dl & Hg).
    rewrite Hg. destruct b; cbn [negb].
    + cbn [animation_running].
      destruct (animation_running a) eqn:Hrun; cbn [negb].
      * eexists false, _. split; [reflexivity|].
        split; [discriminate|]. intros _. now split.
      * eexists true, _. split; [reflexivity|].
        split; [now split | discriminate].
    + eexists false, _. split; [reflexivity|].
      split; [discriminate|]. intros _. now split.
  - cbn [negb]. destruct (animation_running a) eqn:Hrun; cbn [negb].
    + eexists false, _. split; [reflexivity|].
      split; [discriminate|]. intros _. now split.
    + eexists true, _. split; [reflexivity|].
      split; [now split | discriminate].
Qed.

Lemma consistent_bind {A B} (m : Py (@MainWindow F) A)
  (k : A -> Py (@MainWindow F) B) w :
  button_consistent (snd (m w)) ->
  (forall x w1, button_consistent w1 -> button_consistent (snd (k x w1))) ->
  button_consistent (snd (bind m k w)).
Proof.
  intros Hm Hk. unfold bind. destruct (m w) as [[x | e] w1]; cbn [snd] in *.
  - now apply Hk.
  - exact Hm.
Qed.

Lemma set_figures_blank_consistent (b : bool) w :
  button_consistent w -> button_consistent (set_figures_blank b w).
Proof. intros Hb. exact Hb. Qed.

Lemma QMessageBox_warning_consistent (m : Warning) w :
  button_consistent w -> button_consistent (QMessageBox_warning m w).
Proof. intros Hb. exact Hb. Qed.

(** Stopping a running animation and setting the label to "start". *)
Lemma stop_and_label w :
  animation_running (animator w) = true ->
  (_ <- on_animator stop_animation ;; modify (setText StartText)) w
  = (Ok tt,
     setText StartText
       (set_animator (set_timer_active false
                        (set_animation_running false (animator w))) w)).
Proof.
  intros Hrun. unfold bind. rewrite on_animator_stop. unfold modify.
  unfold stop_animation, bind, get, modify, ret. now rewrite Hrun.
Qed.

Lemma stop_if_running_consistent w :
  button_consistent w ->
  button_consistent
    (snd ((if animation_running (animator w)
           then _ <- on_animator stop_animation ;;
                modify (setText StartText)
           else ret tt) w)).
Proof.
  intros Hb. destruct (animation_running (animator w)) eqn:Hrun.
  - rewrite (stop_and_label w Hrun). cbn.
    split; [split; discriminate | reflexivity].
  - exact Hb.
Qed.

Lemma toggle_animation_consistent w :
  button_consistent w -> button_consistent (snd (toggle_animation w)).
Proof.
  intros Hb. unfold toggle_animation.
  apply consistent_bind; [exact Hb|]. intros self w0 Hb0. clear w Hb.
  apply consistent_bind.
  - destruct (py_not (points (animator self))); [|exact Hb0].
    apply on_animator_consistent; [apply generate_points_flags | exact Hb0].
  - intros generated w1 Hb1. destruct generated; cbn [negb]; [|exact Hb1].
    unfold bind, get.
    destruct (animation_running (animator w1)) eqn:Hrun.
    + rewrite on_animator_stop, Hrun. unfold modify. cbn [snd].
      unfold stop_animation, bind, get, modify, ret. rewrite Hrun. cbn.
      split; [split; discriminate | reflexivity].
    + destruct (start_animation_flags (animator w1))
        as (b & a' & Hs & Hstarted & Hnot).
      rewrite (on_animator_result start_animation w1 (Ok b) a' Hs).
      destruct b; unfold modify, ret; cbn [snd].
      * destruct (Hstarted eq_refl) as [Hr Ht]. split; cbn.
        -- split; [intros _; exact Hr | reflexivity].
        -- now rewrite Hr, Ht.
      * apply (button_consistent_flags w1); [|reflexivity | exact Hb1].
        cbn. now apply Hnot.
Qed.

Lemma slider_setValue_flags (v : Z) a :
  flags_same a (snd (slider_setValue v a)).
Proof. apply flags_same_steps_only, slider_setValue_steps. Qed.

Lemma clear_plots_consistent w :
  button_consistent w -> button_consistent (snd (clear_plots w)).
Proof.
  intros Hb. unfold clear_plots. unfold bind at 1. unfold get.
  apply consistent_bind; [now apply stop_if_running_consistent|].
  intros _ w1 Hb1. apply consistent_bind.
  - apply on_animator_consistent; [now split | exact Hb1].
  - intros _ w2 Hb2. apply consistent_bind.
    + apply on_animator_consistent;
        [apply slider_setValue_flags | exact Hb2].
    + intros _ w3 Hb3. exact Hb3.
Qed.

Lemma apply_parameters_consistent (R r d : F) w :
  button_consistent w ->
  button_consistent (snd (apply_parameters R r d w)).
Proof.
  intros Hb. unfold apply_parameters. apply consistent_bind.
  - unfold on_curve.
    destruct (set_parameters R r d (curve (animator w))) as [res c'].
    cbn [snd]. apply (button_consistent_flags w);
      [now split | reflexivity | exact Hb].
  - intros _ w1 Hb1. unfold bind at 1. unfold get.
    now apply stop_if_running_consistent.
Qed.

Lemma except_ValueError_consistent (e : exn) w :
  button_consistent w -> button_consistent (snd (except_ValueError e w)).
Proof.
  intros Hb. unfold except_ValueError.
  now destruct (is_ValueError e).
Qed.

Lemma update_parameters_consistent (fuel : nat) w res w' :
  button_consistent w ->
  update_parameters spin_bound fuel w = Some (res, w') ->
  button_consistent w'.
Proof.
  revert w res w'. induction fuel as [|fuel IH]; intros w res w' Hb Hup;
    [discriminate|].
  cbn [update_parameters] in Hup.
  destruct (fgt (d_spin w) (r_spin w)).
  - destruct (feq _ _).
    + inversion Hup. subst. exact Hb.
    + match type of Hup with
      | context [update_parameters spin_bound fuel ?x] =>
          assert (Hb1 : button_consistent x) by exact Hb;
          destruct (update_parameters spin_bound fuel x)
            as [[[[] | e] w2]|] eqn:Hnested; [| |discriminate]
      end.
      * inversion Hup. subst. exact (IH _ _ _ Hb1 Hnested).
      * pose proof (IH _ _ _ Hb1 Hnested) as Hb2.
        pose proof (except_ValueError_consistent e w2 Hb2) as Hb3.
        rewrite (surjective_pairing (except_ValueError e w2)) in Hup.
        inversion Hup. subst. exact Hb3.
  - unfold try_except in Hup.
    pose proof (apply_parameters_consistent (R_spin w) (r_spin w)
                  (d_spin w) w Hb) as Ha.
    destruct (apply_parameters _ _ _ w) as [[[] | e] w1]; cbn [snd] in Ha.
    + inversion Hup. subst. exact Ha.
    + pose proof (except_ValueError_consistent e w1 Ha) as Hb3.
      rewrite (surjective_pairing (except_ValueError e w1)) in Hup.
      inversion Hup. subst. exact Hb3.
Qed.

Lemma plot_generated_consistent w :
  button_consistent w -> button_consistent (snd (plot_generated w)).
Proof.
  intros Hb. unfold plot_generated. apply consistent_bind.
  - apply on_animator_consistent; [apply generate_points_flags | exact Hb].
  - intros generated w1 Hb1. destruct generated; [|exact Hb1].
    apply consistent_bind.
    + apply on_animator_consistent; [now split | exact Hb1].
    + intros _ w2 Hb2. apply consistent_bind.
      * apply on_animator_consistent;
          [apply slider_setValue_flags | exact Hb2].
      * intros _ w3 Hb3. apply on_animator_consistent; [|exact Hb3].
        apply flags_same_steps_only, draw_current_frame_steps.
Qed.

(** X24.  The label and the timer follow the running flag.  On the window as
    created the label says "stop" exactly when the animation runs and
    the timer is active exactly then, and every handler of the window
    (the animation button, "clear", a spin box change, "plot", the
    timer's timeout, a move of the slider) leaves this true, whether it
    returns or raises and whatever fuel the re-entrant ones are given. *)
Theorem button_consistent_preserved (fuel : nat) (v : Z) w :
  (forall w0, MainWindow_init spin_bound = Ok w0 -> button_consistent w0) /\
  (button_consistent w ->
   button_consistent (snd (toggle_animation w)) /\
   button_consistent (snd (clear_plots w)) /\
   button_consistent (snd (timer_timeout w)) /\
   button_consistent (snd (slider_moved v w)) /\
   (forall res w',
      update_parameters spin_bound fuel w = Some (res, w') ->
      button_consistent w') /\
   (forall res w',
      plot_curve spin_bound fuel w = Some (res, w') ->
      button_consistent w')).
Proof.
  split.
  - intros w0 Hinit. unfold MainWindow_init in Hinit.
    destruct (SteinerCurve_init _ _ _) as [c | e]; [|discriminate].
    cbn [rbind] in Hinit. inversion Hinit. subst w0.
    split; cbn; [split; discriminate | reflexivity].
  - intros Hb.
    split; [now apply toggle_animation_consistent|].
    split; [now apply clear_plots_consistent|].
    split.
    { apply on_animator_consistent; [|exact Hb].
      apply flags_same_steps_only, update_frame_steps. }
    split.
    { apply on_animator_consistent;
        [apply slider_setValue_flags | exact Hb]. }
    split.
    { intros res w' Hup.
      exact (update_parameters_consistent fuel w res w' Hb Hup). }
    intros res w' Hplot. unfold plot_curve in Hplot.
    destruct (update_parameters spin_bound fuel w)
      as [[[[] | e] w1]|] eqn:Hup; [| |discriminate].
    + pose proof (update_parameters_consistent fuel w _ w1 Hb Hup) as Hb1.
      pose proof (plot_generated_consistent w1 Hb1) as Hb2.
      rewrite (surjective_pairing (plot_generated w1)) in Hplot.
      inversion Hplot. subst. exact Hb2.
    + inversion Hplot. subst.
      exact (update_parameters_consistent fuel w _ w' Hb Hup).
Qed.

End WindowProperties.

(* ================================================================== *)
(** ** The real instance: laws and concrete runs *)

#[export] Instance NumericLaws_R : NumericLaws R.
Proof.
  constructor. intros x0. cbn. unfold Reqb, Rleb.
  destruct (Req_dec_T x0 0) as [Heq | Hne]; [|discriminate].
  intros _. destruct (Rle_dec x0 0) as [Hle | Hgt]; [reflexivity|].
  exfalso. apply Hgt. rewrite Heq. apply Rle_refl.
Qed.

#[export] Instance ExactArith_R : ExactArith R.
Proof.
  constructor; cbn.
  - exact cos_0.
  - exact sin_0.
  - intros a. apply Rmult_1_r.
  - intros a b _ _. symmetry. apply mult_IZR.
  - intros a b _ _. symmetry. apply minus_IZR.
  - intros a b _ _. unfold Rleb.
    destruct (Rle_dec (IZR a) (IZR b)) as [Hle | Hgt];
      destruct (Z.leb_spec a b) as [Hz | Hz]; try reflexivity.
    + apply le_IZR in Hle. lia.
    + exfalso. apply Hgt. now apply IZR_le.
  - intros a b _ _. unfold Rgtb.
    destruct (Rgt_dec (IZR a) (IZR b)) as [Hgt | Hle];
      destruct (Z.ltb_spec b a) as [Hz | Hz]; try reflexivity.
    + apply lt_IZR in Hgt. lia.
    + exfalso. apply Hle. now apply IZR_lt.
Qed.

Lemma default_curve_valid : valid_curve default_curve.
Proof.
  unfold valid_curve, invalid_parameters, default_curve. cbn [self_R self_r self_d].
  change 3%R with (of_Z 3). change 1%R with (of_Z 1).
  now rewrite !fle_of_Z, fgt_of_Z by (cbn; lia).
Qed.

(** The step of the 300-sample domain is not zero. *)
Lemma domain_step_not_zero :
  feq (fdiv (fsub (fmul (of_Z 2) np_pi) (of_Z 0)) (of_Z 299)) (of_Z 0)
  = false.
Proof.
  cbn. unfold Reqb.
  destruct (Req_dec_T ((2 * PI - 0) / 299) 0) as [Heq | Hne];
    [|reflexivity].
  exfalso. pose proof PI_RGT_0 as Hpi. lra.
Qed.

Lemma window_animator_well_formed : well_formed window_animator.
Proof.
  split; [cbn; lia|]. split; [split; cbn; lia|].
  intros Hp. now contradiction Hp.
Qed.

(** The window's animator after "start": running, at step 0, with a
    complete sample of the default curve. *)
Lemma started_animator :
  exists a,
    start_animation window_animator = (Ok true, a) /\
    Running a /\ well_formed a /\
    current_step a = 0 /\ total_steps a = 300 /\
    curve a = default_curve.
Proof.
  destruct (start_animation_idle window_animator)
    as (a & Hs & Hrun & Hc & Hcurve & Hsl & Hcs & Hts);
    [reflexivity | reflexivity | cbn; lia | exact default_curve_valid |].
  cbn in Hcurve, Hsl, Hcs, Hts.
  assert (Hwf : well_formed a).
  { pose proof (start_animation_well_formed window_animator
                  window_animator_well_formed) as Hw.
    now rewrite Hs in Hw. }
  exists a. split; [exact Hs|].
  split.
  { split; [|exact Hrun].
    apply sample_complete_present; [rewrite Hts; lia | exact Hc]. }
  split; [exact Hwf|]. auto.
Qed.

(** After five firings it is at step 5, running still. *)
Lemma playing_animator_state :
  Running playing_animator /\ well_formed playing_animator /\
  current_step playing_animator = 5 /\ total_steps playing_animator = 300 /\
  animation_running playing_animator = true /\
  curve playing_animator = default_curve.
Proof.
  destruct started_animator as (a & Hs & Hrun & Hwf & Hcs & Hts & Hcurve).
  assert (Hin : frame_in_range a)
    by (unfold frame_in_range; rewrite Hcs, Hts; lia).
  destruct (ticks_running 5 a Hrun Hwf Hin) as (a' & Ht & Hcs' & Hsteps).
  assert (Hplay : playing_animator = a').
  { unfold playing_animator, bind. now rewrite Hs, Ht. }
  rewrite Hplay. rewrite Hcs, Hts in Hcs'. cbn in Hcs'.
  pose proof (Running_steps_only a a' Hsteps Hrun) as Hrun'.
  split; [exact Hrun'|].
  split; [exact (well_formed_steps_only a a' Hsteps Hwf)|].
  split; [exact Hcs'|].
  destruct Hsteps as (Hc' & _ & _ & Hts' & _).
  split; [congruence|]. split; [apply Hrun' | congruence].
Qed.

(** *** The laws over the reals with special values *)

Lemma inf_scaled_positive (positive : bool) (v : R) :
  (0 < v)%R -> inf_scaled positive v = if positive then PosInf else NegInf.
Proof.
  intros Hv. unfold inf_scaled. destruct (Rlt_dec 0 v); [reflexivity | lra].
Qed.

Lemma inf_scaled_zero (positive : bool) : inf_scaled positive 0 = NaN.
Proof.
  unfold inf_scaled. destruct (Rlt_dec 0 0); [lra | reflexivity].
Qed.

#[export] Instance NumericLaws_xreal : NumericLaws xreal.
Proof.
  constructor. intros [v | | |]; cbn; try discriminate.
  intros Heq. exact (feq_zero_fle (F := R) v Heq).
Qed.

#[export] Instance ExactArith_xreal : ExactArith xreal.
Proof.
  constructor; cbn.
  - f_equal. exact cos_0.
  - f_equal. exact sin_0.
  - intros [v | | |]; cbn.
    + f_equal. apply Rmult_1_r.
    + apply (inf_scaled_positive true). lra.
    + apply (inf_scaled_positive false). lra.
    + reflexivity.
  - intros a b _ _. f_equal. symmetry. apply mult_IZR.
  - intros a b _ _. f_equal. rewrite minus_IZR. reflexivity.
  - intros a b Ha Hb. exact (fle_of_Z (F := R) a b Ha Hb).
  - intros a b Ha Hb. exact (fgt_of_Z (F := R) a b Ha Hb).
Qed.

Lemma finite_default_curve_valid : valid_curve finite_default_curve.
Proof.
  unfold valid_curve, invalid_parameters, finite_default_curve.
  cbn [self_R self_r self_d].
  change (Finite 3) with (of_Z (F := xreal) 3).
  change (Finite 1) with (of_Z (F := xreal) 1).
  now rewrite !fle_of_Z, fgt_of_Z by (cbn; lia).
Qed.

Lemma infinite_curve_valid : valid_curve infinite_curve.
Proof.
  unfold valid_curve, invalid_parameters, infinite_curve.
  cbn [self_R self_r self_d].
  change (Finite 1) with (of_Z (F := xreal) 1).
  rewrite !fle_of_Z, fgt_of_Z by (cbn; lia). reflexivity.
Qed.

(** *** Concrete instances of the theorems above *)


Lemma calculate_polar_from_cartesian_witness :
  exists (ps : list Point) (rho theta : list R),
    calculate_cartesian default_curve [0%R; PI] = Ok ps /\
    calculate_polar default_curve [0%R; PI] = Ok (rho, theta) /\
    length ps = 2%nat /\ length rho = 2%nat /\ length theta = 2%nat.
Proof.
  destruct (calculate_polar_from_cartesian default_curve [0%R; PI]
              default_curve_valid)
    as (ps & rho & theta & Hc & Hp & Hl1 & Hl2 & Hl3 & _).
  exists ps, rho, theta. auto.
Defined.


Lemma calculate_rolling_circle_formula_witness :
  exists self',
    set_parameters 3%R 1%R 1%R default_curve = (Ok tt, self') /\
    calculate_rolling_circle self' [0%R] = Ok ([2%R], [0%R]).
Proof.
  exact (proj2 (calculate_rolling_circle_formula default_curve [])).
Defined.

Lemma generate_points_effect_witness :
  total_steps window_animator = 300 /\
  fst (generate_points window_animator) = Ok true /\
  current_step (snd (generate_points window_animator)) = 0.
Proof.
  split; [reflexivity|].
  destruct (generate_points_effect window_animator eq_refl
              domain_step_not_zero)
    as (ts & _ & _ & _ & _ & _ & Hvalid & Hcs & _).
  split; [exact (Hvalid default_curve_valid) | exact Hcs].
Defined.

Lemma set_frame_idle_returns_witness :
  Idle window_animator /\
  set_frame 301 window_animator = (Ok tt, set_current_step 1 window_animator).
Proof.
  split; [reflexivity|].
  apply (set_frame_idle_returns 301 window_animator); [reflexivity|].
  cbn. lia.
Defined.

Lemma update_frame_advances_witness :
  exists a a',
    start_animation window_animator = (Ok true, a) /\
    Running a /\ current_step a = 0 /\
    ticks 300 a = (Ok tt, a') /\ current_step a' = 0.
Proof.
  destruct started_animator as (a & Hs & Hrun & Hwf & Hcs & Hts & _).
  destruct (proj2 (update_frame_advances a Hrun Hwf) Hcs)
    as (a' & Ht & Hcs' & _).
  rewrite Hts in Ht. exists a, a'. auto.
Defined.

Lemma set_frame_wraps_witness :
  sample_present playing_animator /\
  current_step (snd (set_frame (-1) playing_animator)) = 299 /\
  set_frame 300 playing_animator = set_frame 0 playing_animator.
Proof.
  destruct playing_animator_state as ((Hpresent & _) & Hwf & _ & Hts & _).
  split; [exact Hpresent|].
  destruct (set_frame_wraps (-1) playing_animator Hpresent Hwf)
    as (_ & Hcs & _ & Hwrap).
  rewrite Hts in Hcs, Hwrap. auto.
Defined.

Lemma frame_invariant_preserved_witness :
  sample_present playing_animator /\
  animation_running playing_animator = true /\
  frame_invariant playing_animator /\
  frame_invariant (snd (generate_points playing_animator)) /\
  frame_invariant (snd (start_animation playing_animator)) /\
  frame_invariant (snd (stop_animation playing_animator)) /\
  frame_invariant (snd (update_frame playing_animator)) /\
  frame_invariant (snd (set_frame 1000 playing_animator)).
Proof.
  destruct playing_animator_state
    as ((Hpresent & _) & _ & Hcs & Hts & Hrun & _).
  assert (Hinv : frame_invariant playing_animator)
    by (split; [exact Hts | rewrite Hcs; lia]).
  split; [exact Hpresent|]. split; [exact Hrun|]. split; [exact Hinv|].
  exact (proj2 (frame_invariant_preserved default_curve window_slider
                  playing_animator 1000) Hinv).
Defined.

Lemma stop_animation_frame_witness :
  stop_animation window_animator = (Ok false, window_animator) /\
  fst (stop_animation playing_animator) = Ok true /\
  current_step (snd (stop_animation playing_animator)) = 5.
Proof.
  destruct playing_animator_state as (_ & _ & Hcs & _ & Hrun & _).
  destruct (stop_animation_frame window_animator)
    as (_ & _ & _ & _ & _ & _ & _ & _ & _ & _ & _ & _ & Hidle & _).
  destruct (stop_animation_frame playing_animator)
    as (Hstep & _ & _ & _ & _ & _ & _ & _ & _ & _ & _ & _ & _ & Hstop).
  split; [exact (Hidle eq_refl)|].
  split; [exact (Hstop Hrun)|]. now rewrite Hstep.
Defined.

(** *** Where the code differs from the specification *)

(** C4: a successful [generate_points] while the animation runs at step
    5 leaves the step at 5 and the animation running; it does not reset
    the step to 0 nor pause. *)
Lemma generate_points_no_reset :
  current_step playing_animator = 5 /\
  animation_running playing_animator = true /\
  fst (generate_points playing_animator) = Ok true /\
  ~ (current_step (snd (generate_points playing_animator)) = 0 /\
     animation_running (snd (generate_points playing_animator)) = false).
Proof.
  destruct playing_animator_state as (_ & _ & Hcs & Hts & Hrun & Hcurve).
  destruct (generate_points_valid playing_animator)
    as (a' & Hg & _ & _ & _ & Hcs' & _ & _ & Hrun');
    [rewrite Hts; lia | rewrite Hcurve; exact default_curve_valid |].
  rewrite Hg. cbn [fst snd].
  split; [exact Hcs|]. split; [exact Hrun|]. split; [reflexivity|].
  intros [Hzero _]. rewrite Hcs', Hcs in Hzero. discriminate.
Qed.


(** C5: [set_frame(7)] on the freshly created animator, before any
    sample was generated, returns normally with the step stored. *)
Lemma set_frame_idle_no_exception :
  Idle window_animator /\
  set_frame 7 window_animator = (Ok tt, set_current_step 7 window_animator) /\
  ~ (exists e, fst (set_frame 7 window_animator) = Raise e).
Proof.
  assert (Hs : set_frame 7 window_animator
               = (Ok tt, set_current_step 7 window_animator)).
  { rewrite set_frame_unfold by (cbn; lia).
    now rewrite draw_current_frame_idle. }
  split; [reflexivity|]. split; [exact Hs|].
  rewrite Hs. intros [e He]. discriminate.
Qed.

(* ================================================================== *)
(** ** The curve over the real numbers *)

#[export] Instance CompareLaws_R : CompareLaws R.
Proof.
  constructor; cbn; unfold Rgtb, Reqb.
  - intros a. destruct (Rgt_dec a a) as [Hgt | _]; [|reflexivity].
    exfalso. exact (Rgt_irrefl a Hgt).
  - intros a b. destruct (Rgt_dec a b) as [Hgt | _]; [|discriminate].
    intros _. destruct (Req_dec_T b a) as [Heq | _]; [|reflexivity].
    exfalso. rewrite Heq in Hgt. exact (Rgt_irrefl a Hgt).
Qed.

Lemma cos_sin_square (u : R) : (cos u * cos u + sin u * sin u = 1)%R.
Proof.
  pose proof (sin2_cos2 u) as H. unfold Rsqr in H. lra.
Qed.

(** X3.  Over the reals, for every curve object and every sequence of angles
    on which [calculate_cartesian] returns: the traced point of index [i]
    is at distance [d] from the centre of the rolling circle of the same
    index (the segment [draw_current_frame] draws between the two has
    length [d]), and that centre is at distance [|R - r|] from the
    origin. *)
Theorem traced_point_on_rolling_circle
  (self : SteinerCurve (F := R)) (t_values : list R)
  (ps : list (Point (F := R))) (xs ys : list R)
  (i : nat) (p : Point (F := R)) (cx cy : R) :
  calculate_cartesian self t_values = Ok ps ->
  calculate_rolling_circle self t_values = Ok (xs, ys) ->
  nth_error ps i = Some p ->
  nth_error xs i = Some cx -> nth_error ys i = Some cy ->
  ((x p - cx) * (x p - cx) + (y p - cy) * (y p - cy)
   = self_d self * self_d self)%R /\
  (cx * cx + cy * cy
   = (self_R self - self_r self) * (self_R self - self_r self))%R.
Proof.
  intros Hc Hr Hp Hx Hy.
  destruct (calculate_cartesian_cases self t_values) as [Hok | Hraise];
    [|rewrite Hraise in Hc; discriminate].
  rewrite Hok in Hc. inversion Hc. subst ps. clear Hc Hok.
  unfold calculate_rolling_circle, np_scale, np_cos_arr, np_sin_arr in Hr.
  rewrite !map_map in Hr. inversion Hr. subst xs ys. clear Hr.
  rewrite nth_error_map in Hp, Hx, Hy.
  destruct (nth_error t_values i) as [t|]; [|discriminate].
  cbn [option_map] in Hp, Hx, Hy.
  inversion Hp. inversion Hx. inversion Hy. subst p cx cy.
  unfold spec_point, spec_x, spec_y. cbn.
  set (k := ((self_R self - self_r self) / self_r self)%R).
  pose proof (cos_sin_square (k * t)) as Hk.
  pose proof (cos_sin_square t) as Ht.
  split.
  - replace ((((self_R self - self_r self) * cos t
               + self_d self * cos (k * t))
              - (self_R self - self_r self) * cos t)
             * (((self_R self - self_r self) * cos t
                 + self_d self * cos (k * t))
                - (self_R self - self_r self) * cos t)
             + (((self_R self - self_r self) * sin t
                 - self_d self * sin (k * t))
                - (self_R self - self_r self) * sin t)
               * (((self_R self - self_r self) * sin t
                   - self_d self * sin (k * t))
                  - (self_R self - self_r self) * sin t))%R
      with (self_d self * self_d self
            * (cos (k * t) * cos (k * t) + sin (k * t) * sin (k * t)))%R
      by ring.
    rewrite Hk. ring.
  - replace ((self_R self - self_r self) * cos t
             * ((self_R self - self_r self) * cos t)
             + (self_R self - self_r self) * sin t
               * ((self_R self - self_r self) * sin t))%R
      with ((self_R self - self_r self) * (self_R self - self_r self)
            * (cos t * cos t + sin t * sin t))%R
      by ring.
    rewrite Ht. ring.
Qed.

(** Over the reals the step of a domain of two or more samples is not
    zero. *)
Lemma real_domain_step_not_zero (num : Z) :
  1 < num ->
  feq (fdiv (fsub (fmul (of_Z 2) np_pi) (of_Z 0)) (of_Z (num - 1)))
      (of_Z 0) = false.
Proof.
  intros Hnum. cbn. unfold Reqb.
  destruct (Req_dec_T ((2 * PI - 0) / IZR (num - 1)) 0) as [Heq | Hne];
    [|reflexivity].
  exfalso. pose proof PI_RGT_0 as Hpi.
  assert (Hpos : (0 < IZR (num - 1))%R) by (apply IZR_lt; lia).
  assert (Hq : (0 < (2 * PI - 0) / IZR (num - 1))%R).
  { apply Rdiv_lt_0_compat; lra. }
  lra.
Qed.

(** X4.  The generated sample closes up.  Over the reals, when the ratio
    [(R - r) / r] of the curve is a whole number and the sample has two
    or more steps, the first and the last point that a successful
    [generate_points] stores are the same point, [((R - r) + d, 0)]. *)
Theorem generated_curve_closes (a a' : Animator (F := R)) (n : nat) :
  1 < total_steps a ->
  ((self_R (curve a) - self_r (curve a)) / self_r (curve a) = INR n)%R ->
  generate_points a = (Ok true, a') ->
  nth_error (points a') 0
  = Some (mkPoint (self_R (curve a) - self_r (curve a)
                   + self_d (curve a))%R 0%R) /\
  nth_error (points a') (Z.to_nat (total_steps a - 1))
  = Some (mkPoint (self_R (curve a) - self_r (curve a)
                   + self_d (curve a))%R 0%R).
Proof.
  intros Hnum Hratio Hg.
  destruct (np_linspace_length (of_Z 0) (fmul (of_Z 2) np_pi)
              (total_steps a)) as (ts & Hlin & Hlen); [lia|].
  destruct (generate_points_outcome a ts Hlin) as [[_ Hg'] | [_ Hg']];
    [|rewrite Hg' in Hg; discriminate].
  assert (Ha' : a' = snd (generate_points a)) by now rewrite Hg.
  rewrite Hg' in Ha'. cbn [snd] in Ha'. subst a'.
  cbn [points set_rolling_circle set_polar set_points].
  pose proof (np_linspace_nth (of_Z 0) (fmul (of_Z 2) np_pi)
                (total_steps a) ts 0 Hnum
                (real_domain_step_not_zero _ Hnum) Hlin) as Hfirst.
  pose proof (np_linspace_last (of_Z 0) (fmul (of_Z 2) np_pi)
                (total_steps a) ts Hnum Hlin) as Hlast.
  rewrite !nth_error_map, Hlast, Hfirst by lia. cbn [option_map].
  unfold spec_point, spec_x, spec_y. cbn.
  rewrite Hratio.
  replace (0 * ((2 * PI - 0) / IZR (total_steps a - 1)) + 0)%R with 0%R
    by (field; apply not_0_IZR; lia).
  rewrite Rmult_0_r, cos_0, sin_0, cos_2PI, sin_2PI.
  replace (INR n * (2 * PI))%R with (0 + 2 * INR n * PI)%R by ring.
  rewrite cos_period, sin_period, cos_0, sin_0.
  split; f_equal; f_equal; ring.
Qed.

(* ================================================================== *)
(** ** The axis limits over the real numbers *)

Lemma py_max_from_bounded (B m : R) (l : list R) :
  (m <= B)%R -> Forall (fun v => (v <= B)%R) l ->
  (py_max_from m l <= B)%R.
Proof.
  intros Hm Hl. revert m Hm. induction Hl as [|v l Hv Hl IH]; intros m Hm.
  - exact Hm.
  - cbn [py_max_from]. apply IH. now destruct (fgt v m).
Qed.

Lemma py_max_from_dominated (m : R) (l : list R) :
  Forall (fun v => (v <= m)%R) l -> py_max_from m l = m.
Proof.
  intros Hl. induction Hl as [|v l Hv Hl IH]; [reflexivity|].
  cbn [py_max_from]. cbn [fgt Numeric_R]. unfold Rgtb.
  destruct (Rgt_dec v m) as [Hgt | _]; [lra | exact IH].
Qed.

Lemma valid_curve_positive (self : SteinerCurve (F := R)) :
  valid_curve self ->
  (0 < self_R self /\ 0 < self_r self /\ 0 < self_d self)%R.
Proof.
  intros Hv. apply invalid_parameters_false in Hv as (HR & Hr & Hd & _).
  cbn in HR, Hr, Hd. unfold Rleb in HR, Hr, Hd.
  destruct (Rle_dec (self_R self) 0); [discriminate|].
  destruct (Rle_dec (self_r self) 0); [discriminate|].
  destruct (Rle_dec (self_d self) 0); [discriminate|].
  lra.
Qed.

Lemma Rabs_cos_combination (A d u v : R) :
  (Rabs (A * cos u + d * cos v) <= Rabs A + Rabs d)%R.
Proof.
  eapply Rle_trans; [apply Rabs_triang|].
  rewrite !Rabs_mult.
  pose proof (COS_bound u) as Hu. pose proof (COS_bound v) as Hv.
  pose proof (Rabs_pos A) as HA. pose proof (Rabs_pos d) as Hd.
  assert (Hcu : (Rabs (cos u) <= 1)%R) by (apply Rabs_le; lra).
  assert (Hcv : (Rabs (cos v) <= 1)%R) by (apply Rabs_le; lra).
  nra.
Qed.

Lemma Rabs_sin_combination (A d u v : R) :
  (Rabs (A * sin u - d * sin v) <= Rabs A + Rabs d)%R.
Proof.
  unfold Rminus. eapply Rle_trans; [apply Rabs_triang|].
  rewrite Rabs_Ropp, !Rabs_mult.
  pose proof (SIN_bound u) as Hu. pose proof (SIN_bound v) as Hv.
  pose proof (Rabs_pos A) as HA. pose proof (Rabs_pos d) as Hd.
  assert (Hsu : (Rabs (sin u) <= 1)%R) by (apply Rabs_le; lra).
  assert (Hsv : (Rabs (sin v) <= 1)%R) by (apply Rabs_le; lra).
  nra.
Qed.

(** Every point of a valid curve lies within [R + r + d] of both axes. *)
Lemma spec_point_within (self : SteinerCurve (F := R)) (t : R) :
  valid_curve self ->
  (Rabs (x (spec_point self t)) <= self_R self + self_r self + self_d self
   /\ Rabs (y (spec_point self t))
      <= self_R self + self_r self + self_d self)%R.
Proof.
  intros Hv. destruct (valid_curve_positive self Hv) as (HR & Hr & Hd).
  assert (Hbound : (Rabs (self_R self - self_r self) + Rabs (self_d self)
                    <= self_R self + self_r self + self_d self)%R).
  { rewrite (Rabs_right (self_d self)) by lra.
    assert (Rabs (self_R self - self_r self)
            <= self_R self + self_r self)%R
      by (apply Rabs_le; lra).
    lra. }
  unfold spec_point, spec_x, spec_y. cbn.
  split; (eapply Rle_trans; [|exact Hbound]).
  - apply Rabs_cos_combination.
  - apply Rabs_sin_combination.
Qed.

(** X15.  Over the reals, after a successful [generate_points] for valid
    parameters, with the step in range, the limits that
    [draw_current_frame] sets on both axes of the Cartesian figure are
    [-(R + r + d) * 1.2] and [(R + r + d) * 1.2]: no point of the path
    exceeds [R + r + d], so the path lies inside the axes. *)
Theorem axis_limits_of_generated (a a1 : Animator (F := R)) :
  valid_curve (curve a) -> 1 <= total_steps a ->
  0 <= current_step a < total_steps a ->
  generate_points a = (Ok true, a1) ->
  axis_limits a1
  = Some ((- (self_R (curve a) + self_r (curve a) + self_d (curve a))
           * (12 / 10))%R,
          ((self_R (curve a) + self_r (curve a) + self_d (curve a))
           * (12 / 10))%R) /\
  Forall (fun p =>
            (Rabs (x p) <= self_R (curve a) + self_r (curve a)
                           + self_d (curve a) /\
             Rabs (y p) <= self_R (curve a) + self_r (curve a)
                           + self_d (curve a))%R)
         (points a1).
Proof.
  intros Hv Hn Hcs Hg.
  destruct (np_linspace_length (of_Z 0) (fmul (of_Z 2) np_pi)
              (total_steps a)) as (ts & Hlin & Hlen); [lia|].
  destruct (generate_points_outcome a ts Hlin) as [[_ Hg'] | [_ Hg']];
    [|rewrite Hg' in Hg; discriminate].
  assert (Ha1 : a1 = snd (generate_points a)) by now rewrite Hg.
  rewrite Hg' in Ha1. cbn [snd] in Ha1. subst a1.
  set (B := (self_R (curve a) + self_r (curve a) + self_d (curve a))%R).
  assert (Hall : Forall (fun p => (Rabs (x p) <= B /\ Rabs (y p) <= B)%R)
                   (map (spec_point (curve a)) ts)).
  { apply Forall_map. apply Forall_forall. intros t _.
    now apply spec_point_within. }
  split; [|exact Hall].
  unfold axis_limits.
  cbn [points curve current_step set_rolling_circle set_polar set_points].
  rewrite py_not_false by (rewrite length_map; lia).
  replace (Z.of_nat (length (map (spec_point (curve a)) ts))
           <=? current_step a)
    with false by (symmetry; apply Z.leb_gt; rewrite length_map; lia).
  cbn [orb].
  destruct (map (spec_point (curve a)) ts) as [|p ps] eqn:Hps.
  { apply (f_equal (@length _)) in Hps. rewrite length_map in Hps.
    cbn in Hps. lia. }
  inversion Hall as [|p' ps' [Hpx Hpy] Hrest]. subst p' ps'.
  assert (Hmax : max_dim (curve a) p ps = B).
  { unfold max_dim. apply py_max_from_dominated.
    constructor; [|constructor; [|constructor]].
    - apply py_max_from_bounded; [exact Hpx|].
      apply Forall_map. eapply Forall_impl; [|exact Hrest].
      intros q [Hq _]. exact Hq.
    - apply py_max_from_bounded; [exact Hpy|].
      apply Forall_map. eapply Forall_impl; [|exact Hrest].
      intros q [_ Hq]. exact Hq. }
  cbv zeta. rewrite Hmax. reflexivity.
Qed.

(* ================================================================== *)
(** ** Concrete instances of the further properties *)

Lemma default_parameters_accepted (self : SteinerCurve (F := R)) :
  set_parameters 3%R 1%R 1%R self = (Ok tt, default_curve).
Proof.
  exact (set_parameters_accepts 3%R 1%R 1%R self default_curve_valid).
Qed.

Lemma Reqb_refl (v : R) : Reqb v v = true.
Proof. unfold Reqb. destruct (Req_dec_T v v); congruence. Qed.

(** The sample of the created window's animator. *)
Lemma generated_animator :
  exists a1,
    generate_points window_animator = (Ok true, a1) /\
    sample_present a1 /\ well_formed a1 /\
    animation_running a1 = false /\ timer_active a1 = false /\
    current_step a1 = 0 /\ total_steps a1 = 300.
Proof.
  destruct (generate_points_valid window_animator)
    as (a1 & Hg & Hc & _ & _ & Hcs & Hts & Htm & Hrun);
    [cbn; lia | exact default_curve_valid|].
  exists a1. split; [exact Hg|].
  assert (Hwf : well_formed a1).
  { pose proof (generate_points_well_formed window_animator
                  window_animator_well_formed) as Hw.
    now rewrite Hg in Hw. }
  split; [apply sample_complete_present; [apply Hwf | exact Hc]|].
  split; [exact Hwf|]. auto.
Qed.

Lemma generated_window_state :
  sample_present (animator generated_window) /\
  well_formed (animator generated_window) /\
  button_consistent generated_window /\
  total_steps (animator generated_window) = 300.
Proof.
  destruct generated_animator
    as (a1 & Hg & Hp & Hwf & Hrun & Htm & _ & Hts).
  unfold generated_window. rewrite Hg. cbn [snd animator set_animator].
  split; [exact Hp|]. split; [exact Hwf|]. split; [|exact Hts].
  split; cbn.
  - rewrite Hrun. split; discriminate.
  - now rewrite Hrun, Htm.
Qed.

(** [created_window] is what [MainWindow.__init__] returns over the
    reals. *)
Lemma created_window_init : MainWindow_init spin_clamp = Ok created_window.
Proof.
  unfold MainWindow_init, SteinerCurve_init.
  rewrite (default_parameters_accepted _). cbn [rbind].
  unfold created_window, window_animator, window_slider, default_curve.
  cbn [self_R self_r self_d].
  assert (H3 : spin_clamp 3 = 3%R).
  { unfold spin_clamp. rewrite Rmin_right by lra. apply Rmax_right. lra. }
  assert (H1 : spin_clamp 1 = 1%R).
  { unfold spin_clamp. rewrite Rmin_right by lra. apply Rmax_right. lra. }
  now rewrite H3, H1.
Qed.

Lemma created_window_consistent : button_consistent created_window.
Proof. split; cbn; [split; discriminate | reflexivity]. Qed.

Lemma accepted_parameters_evaluate_witness :
  exists ps rho theta xs ys,
    calculate_cartesian default_curve [0%R; PI] = Ok ps /\
    calculate_polar default_curve [0%R; PI] = Ok (rho, theta) /\
    calculate_rolling_circle default_curve [0%R; PI] = Ok (xs, ys) /\
    length ps = 2%nat.
Proof.
  destruct (accepted_parameters_evaluate 3%R 1%R 1%R default_curve
              default_curve [0%R; PI]
              (default_parameters_accepted default_curve))
    as (ps & rho & theta & xs & ys & Hc & Hp & Hr & Hl & _).
  exists ps, rho, theta, xs, ys. auto.
Defined.

Lemma evaluation_raises_iff_r_zero_witness :
  calculate_cartesian (curve flat_animator) [] = Raise ZeroDivisionError /\
  calculate_polar (curve flat_animator) [] = Raise ZeroDivisionError.
Proof.
  exact (proj1 (evaluation_raises_iff_r_zero (curve flat_animator) [])
           (Reqb_refl 0%R)).
Defined.

Lemma traced_point_on_rolling_circle_witness :
  exists p cx cy,
    calculate_cartesian default_curve [PI] = Ok [p] /\
    calculate_rolling_circle default_curve [PI] = Ok ([cx], [cy]) /\
    ((x p - cx) * (x p - cx) + (y p - cy) * (y p - cy) = 1 * 1)%R.
Proof.
  pose proof (calculate_cartesian_quotient default_curve [PI]
                (valid_curve_py_div default_curve default_curve_valid))
    as Hc.
  cbn [map] in Hc.
  eexists. eexists. eexists.
  split; [exact Hc|]. split; [reflexivity|].
  exact (proj1 (traced_point_on_rolling_circle default_curve [PI] _ _ _
                  0%nat _ _ _ Hc eq_refl eq_refl eq_refl eq_refl)).
Defined.

Lemma generated_curve_closes_witness :
  exists a1,
    generate_points window_animator = (Ok true, a1) /\
    nth_error (points a1) 0 = nth_error (points a1) 299.
Proof.
  destruct generated_animator as (a1 & Hg & _).
  exists a1. split; [exact Hg|].
  assert (Hratio : ((self_R (curve window_animator)
                     - self_r (curve window_animator))
                    / self_r (curve window_animator) = INR 2)%R)
    by (cbn; lra).
  destruct (generated_curve_closes window_animator a1 2
              ltac:(cbn; lia) Hratio Hg) as [Hfirst Hlast].
  cbn [total_steps window_animator Animator_init] in Hlast.
  change (Z.to_nat (300 - 1)) with 299%nat in Hlast.
  now rewrite Hfirst, Hlast.
Defined.

Lemma start_animation_transitions_witness :
  exists a1,
    generate_points window_animator = (Ok true, a1) /\
    start_animation window_animator
    = (Ok true, set_timer_active true (set_animation_running true a1)).
Proof.
  exact (proj1 (start_animation_transitions window_animator)
           eq_refl eq_refl ltac:(cbn; lia) default_curve_valid).
Defined.

Lemma start_animation_failure_witness :
  start_animation flat_animator
  = (Ok false, QMessageBox_critical ZeroDivisionError flat_animator).
Proof.
  exact (proj2 (start_animation_failure flat_animator eq_refl
                  ltac:(cbn; lia) (Reqb_refl 0%R))).
Defined.

Lemma start_then_stop_restores_witness :
  exists a1,
    generate_points window_animator = (Ok true, a1) /\
    (start_animation ;; stop_animation) a1 = (Ok true, a1).
Proof.
  destruct generated_animator as (a1 & Hg & Hp & _ & Hrun & Htm & _).
  exists a1. split; [exact Hg|].
  exact (start_then_stop_restores a1 (conj Hp Hrun) Htm).
Defined.

Lemma generate_points_idempotent_witness :
  exists a1,
    generate_points window_animator = (Ok true, a1) /\
    generate_points a1 = (Ok true, a1).
Proof.
  destruct generated_animator as (a1 & Hg & _).
  exists a1. split; [exact Hg|].
  exact (generate_points_idempotent window_animator a1 Hg).
Defined.

Lemma generated_polar_on_path_witness :
  exists a1,
    generate_points window_animator = (Ok true, a1) /\
    polar_path (points a1) = (polar_theta a1, polar_r a1).
Proof.
  destruct generated_animator as (a1 & Hg & _).
  exists a1. split; [exact Hg|].
  exact (proj1 (generated_polar_on_path window_animator a1 Hg)).
Defined.

Lemma set_frame_after_generate_witness :
  exists a1 f,
    generate_points window_animator = (Ok true, a1) /\
    set_frame 301 a1 = (Ok tt, canvas_draw f (set_current_step 1 a1)).
Proof.
  destruct generated_animator as (a1 & Hg & _).
  destruct (np_linspace_length (of_Z 0) (fmul (of_Z 2) np_pi)
              (total_steps window_animator)) as (ts & Hlin & _);
    [cbn; lia|].
  destruct (set_frame_after_generate window_animator a1 ts 301
              ltac:(cbn; lia) Hlin Hg) as (t & _ & Hs).
  exists a1. eexists. split; [exact Hg | exact Hs].
Defined.

Lemma ticks_advance_with_slider_witness :
  exists a a',
    start_animation window_animator = (Ok true, a) /\
    ticks 7 a = (Ok tt, a') /\
    current_step a' = 7 /\ value (slider a') = 7.
Proof.
  destruct started_animator as (a & Hs & Hrun & Hwf & Hcs & Hts & _).
  assert (Hin : frame_in_range a)
    by (unfold frame_in_range; rewrite Hcs, Hts; lia).
  destruct (ticks_advance_with_slider 7 a Hrun Hwf Hin)
    as (a' & Ht & Hcs' & Hsl & _).
  rewrite Hcs, Hts in Hcs'. cbn in Hcs'.
  exists a, a'. split; [exact Hs|]. split; [exact Ht|].
  split; [exact Hcs'|]. rewrite Hsl by lia. exact Hcs'.
Defined.

Lemma well_formed_preserved_witness :
  well_formed window_animator /\
  well_formed (snd (generate_points window_animator)) /\
  well_formed (snd (set_frame 1000 window_animator)).
Proof.
  destruct (well_formed_preserved default_curve 0 window_animator 1000)
    as (Hinit & Hpres).
  destruct (Hpres Hinit) as (Hg & _ & _ & _ & Hs). auto.
Defined.

Lemma axis_limits_of_generated_witness :
  exists a1,
    generate_points window_animator = (Ok true, a1) /\
    axis_limits a1
    = Some ((- (3 + 1 + 1) * (12 / 10))%R, ((3 + 1 + 1) * (12 / 10))%R).
Proof.
  destruct generated_animator as (a1 & Hg & _).
  exists a1. split; [exact Hg|].
  exact (proj1 (axis_limits_of_generated window_animator a1
                  default_curve_valid ltac:(cbn; lia) ltac:(cbn; lia) Hg)).
Defined.

Lemma toggle_animation_flips_witness :
  (toggle_animation ;; toggle_animation) generated_window
  = (Ok tt, generated_window).
Proof.
  destruct generated_window_state as (Hp & _ & Hb & _).
  exact (proj2 (toggle_animation_flips generated_window Hp Hb)).
Defined.

Lemma toggle_animation_idle_witness :
  exists a1,
    generate_points window_animator = (Ok true, a1) /\
    toggle_animation created_window
    = (Ok tt,
       setText StopText
         (set_animator (set_timer_active true
                          (set_animation_running true a1))
            created_window)).
Proof.
  exact (proj1 (toggle_animation_idle created_window eq_refl eq_refl
                  ltac:(cbn; lia)) default_curve_valid).
Defined.

Lemma clear_plots_effect_witness :
  exists w',
    clear_plots generated_window = (Ok tt, w') /\
    figures_blank w' = true /\ current_step (animator w') = 0 /\
    points (animator w') = points (animator generated_window).
Proof.
  destruct generated_window_state as (_ & Hwf & Hb & _).
  destruct (clear_plots_effect generated_window Hwf Hb)
    as (w' & Hc & _ & _ & _ & Hcs & _ & Hblank & Hpts & _).
  exists w'. auto.
Defined.

Lemma slider_redraws_after_clear_witness :
  exists w1 w2,
    clear_plots generated_window = (Ok tt, w1) /\
    slider_moved 10 w1 = (Ok tt, w2) /\
    figures_blank w2 = false /\ current_step (animator w2) = 10.
Proof.
  destruct generated_window_state as (Hp & Hwf & _ & Hts).
  destruct (slider_redraws_after_clear generated_window 10 Hwf Hp
              ltac:(rewrite Hts; lia))
    as (w1 & w2 & f & Hc & _ & Hs & Hblank & Hcs & _).
  exists w1, w2. auto.
Defined.

Lemma update_parameters_accepts_witness :
  exists w',
    update_parameters spin_clamp 1 created_window = Some (Ok tt, w') /\
    curve (animator w') = default_curve.
Proof.
  destruct (update_parameters_accepts spin_clamp 0 created_window
              default_curve_valid) as (w' & Hu & Hc & _).
  exists w'. split; [exact Hu | exact Hc].
Defined.

Lemma spin_clamp_one : spin_clamp 1 = 1%R.
Proof.
  unfold spin_clamp. rewrite Rmin_right by lra. apply Rmax_right. lra.
Qed.

Lemma update_parameters_coerces_witness :
  exists w',
    update_parameters spin_clamp 2 window_d_above_r = Some (Ok tt, w') /\
    d_spin w' = 1%R /\
    curve (animator w') = mkSteinerCurve 3%R 1%R 1%R /\
    warnings w' = [Warning_d_exceeds_r].
Proof.
  assert (Hgt : fgt (d_spin window_d_above_r) (r_spin window_d_above_r)
                = true).
  { change (fgt (of_Z 2) (of_Z 1) = true).
    now rewrite fgt_of_Z by (cbn; lia). }
  assert (HR : fle (R_spin window_d_above_r) (of_Z 0) = false).
  { change (fle (of_Z 3) (of_Z 0) = false).
    now rewrite fle_of_Z by (cbn; lia). }
  assert (Hr : fle (r_spin window_d_above_r) (of_Z 0) = false).
  { change (fle (of_Z 1) (of_Z 0) = false).
    now rewrite fle_of_Z by (cbn; lia). }
  destruct (update_parameters_coerces spin_clamp 0 window_d_above_r
              Hgt HR Hr spin_clamp_one)
    as (_ & w' & Hu & Hd & _ & Hc & _ & Hw & _).
  exists w'. auto.
Defined.

Lemma plot_curve_effect_witness :
  exists w',
    plot_curve spin_clamp 1 created_window = Some (Ok tt, w') /\
    current_step (animator w') = 0 /\ figures_blank w' = false /\
    animation_running (animator w') = false.
Proof.
  destruct (plot_curve_effect spin_clamp 0 created_window
              window_animator_well_formed default_curve_valid)
    as (w' & ts & f & Hp & _ & _ & _ & _ & _ & Hrun & Hcs & _ & Hb & _).
  exists w'. auto.
Defined.

Lemma button_consistent_preserved_witness :
  button_consistent created_window /\
  button_consistent (snd (toggle_animation created_window)) /\
  button_consistent (snd (clear_plots created_window)).
Proof.
  destruct (button_consistent_preserved spin_clamp 0 0 created_window)
    as (_ & Hpres).
  destruct (Hpres created_window_consistent) as (Ht & Hc & _). 
  split; [exact created_window_consistent|]. auto.
Defined.
